(** * Terminal MP3 player: playback clock, track navigation, visualizer

    A shallow embedding of [visualizer/player.py].

    Number model.  Python floats are idealised as exact rationals ([Q]);
    equalities between computed values are therefore stated with [==]
    ([Qeq]) unless the code stores the very same value.  Python integers
    are [Z]; [//] and [%] are [Z.div] and [Z.modulo] (both floor towards
    minus infinity, the remainder taking the sign of the divisor), and
    [int(x)] truncates towards zero.  Bounds, orderings and invariants
    proved over the rationals are the ones rounding to the nearest double
    preserves; where rounding itself decides a statement (the fading
    branch of the visualizer) the code is also given on binary64
    ([fade64]).

    Environment model.  Everything the program reads from outside is an
    explicit argument of the function that reads it: [time.time()] is a
    rational [now], [mixer.music.get_busy()] a boolean, the success of
    [mixer.music.load/play] a boolean, the length probe an [option Q],
    [np.sin(..)] a rational, and the stream of [np.random.random()]
    draws of one call a function [nat -> Q] (the k-th draw of that call). *)

From Stdlib Require Import String ZArith QArith Qminmax Qround Lia Lqa.
From Stdlib Require Import PrimFloat.
From stdpp Require Import base list.

Open Scope Q_scope.

(** ** Python primitives *)

(** [max(a, b)]: keeps [a] unless [b] is strictly greater. *)
Definition py_max (a b : Q) : Q := if Qlt_le_dec a b then b else a.

(** [min(a, b)]: keeps [a] unless [b] is strictly smaller. *)
Definition py_min (a b : Q) : Q := if Qlt_le_dec b a then b else a.

(** [int(x)] on a float: truncation towards zero. *)
Definition py_int (x : Q) : Z := Z.quot (Qnum x) (Zpos (Qden x)).

(** [l[i]] on a Python list: negative indices count from the end,
    anything else out of range raises [IndexError] ([None]). *)
Definition py_index {A : Type} (l : list A) (i : Z) : option A :=
  let n := Z.of_nat (length l) in
  if (0 <=? i)%Z then l !! Z.to_nat i
  else if (- n <=? i)%Z then l !! Z.to_nat (n + i)
  else None.

(** ** The player object *)

Record MP3Player : Type := mkPlayer {
  songs : list string;
  current_song_index : Z;
  paused : bool;
  volume : Q;
  running : bool;
  audio_data : list Q;
  song_start_time : Q;
  pause_time : Q;
  seek_offset : Q;
  peak_data : list Q;
  beat_intensity : Q;
  current_song_length : Q
}.

(** [MP3Player.__init__], after [load_songs] found [found]. *)
Definition init (found : list string) : MP3Player :=
  {| songs := found;
     current_song_index := 0;
     paused := false;
     volume := 0.7;
     running := true;
     audio_data := replicate 64 0;
     song_start_time := 0;
     pause_time := 0;
     seek_offset := 0;
     peak_data := replicate 64 0;
     beat_intensity := 0;
     current_song_length := 0 |}.

(** What the mixer answers during one [play_song] call. *)
Record PlayEnv : Type := mkPlayEnv {
  play_ok : bool;          (* load, set_volume and play raised nothing *)
  play_now : Q;            (* time.time() *)
  probe : option Q         (* pygame.mixer.Sound(path).get_length() *)
}.

(** What is observed during one [get_song_position] call. *)
Record PosEnv : Type := mkPosEnv {
  busy : bool;             (* mixer.music.get_busy() *)
  now : Q                  (* time.time() *)
}.

Definition set_index (i : Z) (s : MP3Player) : MP3Player :=
  {| songs := songs s; current_song_index := i; paused := paused s;
     volume := volume s; running := running s; audio_data := audio_data s;
     song_start_time := song_start_time s; pause_time := pause_time s;
     seek_offset := seek_offset s; peak_data := peak_data s;
     beat_intensity := beat_intensity s;
     current_song_length := current_song_length s |}.

Definition set_clock (p : bool) (start pause off : Q) (s : MP3Player)
  : MP3Player :=
  {| songs := songs s; current_song_index := current_song_index s;
     paused := p; volume := volume s; running := running s;
     audio_data := audio_data s; song_start_time := start;
     pause_time := pause; seek_offset := off; peak_data := peak_data s;
     beat_intensity := beat_intensity s;
     current_song_length := current_song_length s |}.

Definition set_length (len : Q) (s : MP3Player) : MP3Player :=
  {| songs := songs s; current_song_index := current_song_index s;
     paused := paused s; volume := volume s; running := running s;
     audio_data := audio_data s; song_start_time := song_start_time s;
     pause_time := pause_time s; seek_offset := seek_offset s;
     peak_data := peak_data s; beat_intensity := beat_intensity s;
     current_song_length := len |}.

Definition set_volume (v : Q) (s : MP3Player) : MP3Player :=
  {| songs := songs s; current_song_index := current_song_index s;
     paused := paused s; volume := v; running := running s;
     audio_data := audio_data s; song_start_time := song_start_time s;
     pause_time := pause_time s; seek_offset := seek_offset s;
     peak_data := peak_data s; beat_intensity := beat_intensity s;
     current_song_length := current_song_length s |}.

Definition set_songs (l : list string) (s : MP3Player) : MP3Player :=
  {| songs := l; current_song_index := current_song_index s;
     paused := paused s; volume := volume s; running := running s;
     audio_data := audio_data s; song_start_time := song_start_time s;
     pause_time := pause_time s; seek_offset := seek_offset s;
     peak_data := peak_data s; beat_intensity := beat_intensity s;
     current_song_length := current_song_length s |}.

Definition set_visual (a p : list Q) (b : Q) (s : MP3Player) : MP3Player :=
  {| songs := songs s; current_song_index := current_song_index s;
     paused := paused s; volume := volume s; running := running s;
     audio_data := a; song_start_time := song_start_time s;
     pause_time := pause_time s; seek_offset := seek_offset s;
     peak_data := p; beat_intensity := b;
     current_song_length := current_song_length s |}.

(** ** Playback clock and commands *)

Definition no_songs (s : MP3Player) : bool :=
  match songs s with [] => true | _ => false end.

(** [play_song(start_pos)].  [None] is the [IndexError] of
    [self.songs[self.current_song_index]], raised before the [try] and
    before any field is written.  A failure inside the outer [try] leaves
    the object as it was; a failure of the length probe alone stores 0. *)
Definition play_song (e : PlayEnv) (start_pos : Q) (s : MP3Player)
  : option MP3Player :=
  if no_songs s then Some s
  else match py_index (songs s) (current_song_index s) with
       | None => None
       | Some _ =>
           if play_ok e then
             Some (set_length (match probe e with Some len => len | None => 0 end)
                     (set_clock false (play_now e) (pause_time s) start_pos s))
           else Some s
       end.

(** [toggle_pause()], with [t] the value of [time.time()]. *)
Definition toggle_pause (t : Q) (s : MP3Player) : MP3Player :=
  if paused s then
    set_clock false (song_start_time s + (t - pause_time s))
      (pause_time s) (seek_offset s) s
  else
    set_clock true (song_start_time s) t (seek_offset s) s.

Definition next_song (e : PlayEnv) (s : MP3Player) : option MP3Player :=
  if no_songs s then Some s
  else play_song e 0
         (set_index ((current_song_index s + 1) mod Z.of_nat (length (songs s))) s).

Definition prev_song (e : PlayEnv) (s : MP3Player) : option MP3Player :=
  if no_songs s then Some s
  else play_song e 0
         (set_index ((current_song_index s - 1) mod Z.of_nat (length (songs s))) s).

(** [get_song_position()]. *)
Definition get_song_position (o : PosEnv) (s : MP3Player) : Q :=
  if negb (busy o) then 0
  else
    let elapsed :=
      if paused s then pause_time s - song_start_time s
      else now o - song_start_time s in
    seek_offset s + elapsed.

Definition get_song_length (s : MP3Player) : Q := current_song_length s.

(** [seek_forward()]: [guard] is the [get_busy()] of the first line; the
    [try/except] swallows whatever [play_song] raises. *)
Definition seek_forward (guard : bool) (o : PosEnv) (e : PlayEnv)
    (s : MP3Player) : MP3Player :=
  if no_songs s || negb guard then s
  else
    let current_pos := get_song_position o s in
    let new_pos := current_pos + 10 in
    match play_song e new_pos s with Some s' => s' | None => s end.

Definition seek_backward (guard : bool) (o : PosEnv) (e : PlayEnv)
    (s : MP3Player) : MP3Player :=
  if no_songs s || negb guard then s
  else
    let current_pos := get_song_position o s in
    let new_pos := py_max 0 (current_pos - 10) in
    match play_song e new_pos s with Some s' => s' | None => s end.

Definition volume_up (s : MP3Player) : MP3Player :=
  set_volume (py_min 1.0 (volume s + 0.1)) s.

Definition volume_down (s : MP3Player) : MP3Player :=
  set_volume (py_max 0.0 (volume s - 0.1)) s.

(** ** Progress bar *)

(** The [progress] of [draw_progress_bar]. *)
Definition progress (position len : Q) : Q :=
  if Qlt_le_dec 0 len then py_min 1.0 (position / len) else 0.

(** The number of filled cells of [draw_progress_bar]. *)
Definition progress_filled (o : PosEnv) (width : Z) (s : MP3Player) : Z :=
  let position := get_song_position o s in
  let len := get_song_length s in
  let bar_width := (width - 24)%Z in
  py_int (progress position len * inject_Z bar_width).

(** ** Visualizer *)

(** What one call of [generate_visualizer_data] observes. *)
Record TickEnv : Type := mkTickEnv {
  tick_busy : bool;        (* mixer.music.get_busy() *)
  tick_sin : Q;            (* np.sin(current_time * beat_freq * 2 * np.pi) *)
  tick_rnd : nat -> Q      (* k-th np.random.random() of this call *)
}.

(** [np.clip(x, lo, hi)] on one element. *)
Definition np_clip (lo hi x : Q) : Q :=
  if Qlt_le_dec x lo then lo else if Qlt_le_dec hi x then hi else x.

(** [range(lo, hi)]. *)
Definition range (lo hi : nat) : list nat := seq lo (hi - lo).

Definition of_nat (i : nat) : Q := inject_Z (Z.of_nat i).

(** Position addressed by a numpy integer index into an array of [n]
    cells ([None]: [IndexError]). *)
Definition np_slot (n : nat) (i : Z) : option nat :=
  if (0 <=? i)%Z then (if (i <? Z.of_nat n)%Z then Some (Z.to_nat i) else None)
  else if (- Z.of_nat n <=? i)%Z then Some (Z.to_nat (Z.of_nat n + i))
  else None.

(** One iteration of the peak loop: snap up or decay.  Both arrays have
    the same length in every state the program builds; a missing cell
    leaves the peaks as they are. *)
Definition peak_step (audio peaks : list Q) (i : nat) : list Q :=
  match audio !! i, peaks !! i with
  | Some a, Some p =>
      if Qlt_le_dec p a then <[i := a]> peaks else <[i := p * 0.94]> peaks
  | _, _ => peaks
  end.

Definition update_peaks (audio peaks : list Q) : list Q :=
  fold_left (peak_step audio) (range 0 (length audio)) peaks.

Section Visualizer.

(** [x ** 1.3], which has no rational closed form. *)
Variable pow13 : Q -> Q.

(** The drawing order of one playing tick: draw 0 decides the drop,
    draw [i + 1] is the variation of band [i], draw 65 decides the
    spike and draw 66 picks its band. *)
Definition smoothed_beat (e : TickEnv) (s : MP3Player) : Q :=
  let beat := (tick_sin e + 1) / 2 in
  let b := beat_intensity s * 0.75 + beat * 0.25 in
  if Qlt_le_dec (tick_rnd e 0) 0.015 then b * 0.3 else b.

Definition raw_frame (rnd : nat -> Q) (beat_intensity : Q) : list Q :=
  let new_data := replicate 64 0 in
  let bass_base := pow13 beat_intensity * 1.6 in
  let new_data :=
    fold_left (fun nd i =>
      let variation := rnd (S i) * 0.6 + 0.7 in
      let strength := bass_base * variation * (1.0 - of_nat i / 25) in
      <[i := strength]> nd) (range 0 16) new_data in
  let mid_low_base := beat_intensity * 1.35 in
  let new_data :=
    fold_left (fun nd i =>
      let variation := rnd (S i) * 0.7 + 0.6 in
      let strength :=
        mid_low_base * variation * (1.0 - (of_nat i - 16) / 20) in
      <[i := strength]> nd) (range 16 28) new_data in
  let mid_base := beat_intensity * 1.2 in
  let new_data :=
    fold_left (fun nd i =>
      let variation := rnd (S i) * 0.8 + 0.5 in
      let strength := mid_base * variation in
      <[i := strength]> nd) (range 28 41) new_data in
  let high_mid_base := beat_intensity * 1.0 in
  let new_data :=
    fold_left (fun nd i =>
      let variation := rnd (S i) * 0.9 + 0.4 in
      let strength := high_mid_base * variation in
      <[i := strength]> nd) (range 41 53) new_data in
  let treble_base := beat_intensity * 0.85 in
  let new_data :=
    fold_left (fun nd i =>
      let variation := rnd (S i) * 1.0 + 0.3 in
      let strength :=
        treble_base * variation * (0.9 - (of_nat i - 53) / 18) in
      <[i := strength]> nd) (range 53 64) new_data in
  new_data.

(** The energy spike.  For draws in [0, 1) the band index is in range;
    the model leaves the frame alone where numpy would raise. *)
Definition add_spike (rnd : nat -> Q) (new_data : list Q) : list Q :=
  if Qlt_le_dec (rnd 65%nat) 0.12 then
    let spike_bar := py_int (rnd 66%nat * 64) in
    match np_slot (length new_data) spike_bar with
    | Some k =>
        match new_data !! k with
        | Some x => <[k := py_min 2.2 (x + 0.7)]> new_data
        | None => new_data
        end
    | None => new_data
    end
  else new_data.

(** [generate_visualizer_data()]; the returned array is the
    [audio_data] of the resulting object. *)
Definition generate_visualizer_data (e : TickEnv) (s : MP3Player)
  : MP3Player :=
  if tick_busy e && negb (paused s) then
    let beat_intensity := smoothed_beat e s in
    let new_data := raw_frame (tick_rnd e) beat_intensity in
    let new_data := add_spike (tick_rnd e) new_data in
    let new_data := map (np_clip 0 2.2) new_data in
    let audio :=
      zip_with (fun a n => a * 0.35 + n * 0.65) (audio_data s) new_data in
    set_visual audio (update_peaks audio (peak_data s)) beat_intensity s
  else
    set_visual (map (fun a => a * 0.82) (audio_data s))
               (map (fun p => p * 0.88) (peak_data s))
               (beat_intensity s * 0.85) s.

(** ** Bar layout of [draw_visualizer] *)

(** The column loop: each bar gets [(col_start, current_bar_width)]. *)
Fixpoint bar_columns (bar_width remainder : Z) (bars : list nat)
    (col_position : Z) : list (Z * Z) :=
  match bars with
  | [] => []
  | i :: rest =>
      let current_bar_width :=
        (bar_width + (if Z.of_nat i <? remainder then 1 else 0))%Z in
      let col_start := col_position in
      (col_start, current_bar_width)
        :: bar_columns bar_width remainder rest
             (col_position + current_bar_width)
  end.

Definition bar_layout (bar_count : nat) (width : Z) : list (Z * Z) :=
  let available_width := (width - 4)%Z in
  let bar_width := Z.max 1 (available_width / Z.of_nat bar_count) in
  let remainder := (available_width mod Z.of_nat bar_count)%Z in
  bar_columns bar_width remainder (range 0 bar_count) 2.

(** Layout used by [draw_visualizer(stdscr, player, _, _, width)]:
    the tick happens first and the bars are counted on its result. *)
Definition draw_visualizer_layout (e : TickEnv) (width : Z)
    (s : MP3Player) : list (Z * Z) :=
  let data := audio_data (generate_visualizer_data e s) in
  bar_layout (length data) width.

Definition total_width (cols : list (Z * Z)) : Z :=
  fold_right (fun c acc => (snd c + acc)%Z) 0%Z cols.

(** ** The main loop as a transition system *)

Inductive Command : Type :=
| KeySpace (t : Q)
| KeyNext (e : PlayEnv)
| KeyPrev (e : PlayEnv)
| KeyRight (guard : bool) (o : PosEnv) (e : PlayEnv)
| KeyLeft (guard : bool) (o : PosEnv) (e : PlayEnv)
| KeyPlus
| KeyMinus
| KeyReload (found : list string)
| AutoPlay (e : PlayEnv)
| Tick (e : TickEnv).

(** [None]: an exception left the method. *)
Definition exec (c : Command) (s : MP3Player) : option MP3Player :=
  match c with
  | KeySpace t => Some (toggle_pause t s)
  | KeyNext e => next_song e s
  | KeyPrev e => prev_song e s
  | KeyRight g o e => Some (seek_forward g o e s)
  | KeyLeft g o e => Some (seek_backward g o e s)
  | KeyPlus => Some (volume_up s)
  | KeyMinus => Some (volume_down s)
  | KeyReload found => Some (set_songs found s)
  | AutoPlay e => play_song e 0 s
  | Tick e => Some (generate_visualizer_data e s)
  end.

(** The contract of the numeric environment: a sine lies in [-1, 1]
    and every random draw in [0, 1). *)
Definition valid_tick (e : TickEnv) : Prop :=
  -1 <= tick_sin e <= 1 /\ forall k, 0 <= tick_rnd e k < 1.

Definition valid_command (c : Command) : Prop :=
  match c with Tick e => valid_tick e | _ => True end.

Inductive reachable : MP3Player -> Prop :=
| reach_init found : reachable (init found)
| reach_step s c s' :
    reachable s -> valid_command c -> exec c s = Some s' -> reachable s'.

(** [n] consecutive ticks, one environment each. *)
Definition ticks (es : list TickEnv) (s : MP3Player) : MP3Player :=
  fold_left (fun st e => generate_visualizer_data e st) es s.

(** The clock readings a command takes, in the order it takes them. *)
Definition command_clock (c : Command) : list Q :=
  match c with
  | KeySpace t => [t]
  | KeyNext e | KeyPrev e | AutoPlay e => [play_now e]
  | KeyRight _ o e | KeyLeft _ o e => [now o; play_now e]
  | KeyPlus | KeyMinus | KeyReload _ | Tick _ => []
  end.

Fixpoint ascending (t : Q) (l : list Q) : Prop :=
  match l with
  | [] => True
  | x :: rest => t <= x /\ ascending x rest
  end.

(** States reachable while [time.time()] never runs backwards; the
    index is the latest reading. *)
Inductive reachable_at : Q -> MP3Player -> Prop :=
| at_init found : reachable_at 0 (init found)
| at_step t s c s' :
    reachable_at t s -> valid_command c ->
    ascending t (command_clock c) ->
    exec c s = Some s' ->
    reachable_at (List.last (command_clock c) t) s'.

End Visualizer.

(** ** Reference formulas *)

(** The position formula as the specification words it: the seek offset
    plus the elapsed time, measured up to the pause stamp when paused and
    up to the current time otherwise. *)
Definition position_formula (o : PosEnv) (s : MP3Player) : Q :=
  let elapsed :=
    if paused s then pause_time s - song_start_time s
    else now o - song_start_time s in
  seek_offset s + elapsed.

(** One pause at [fst c] followed by one resume at [snd c]. *)
Definition pause_resume (c : Q * Q) (s : MP3Player) : MP3Player :=
  toggle_pause (snd c) (toggle_pause (fst c) s).

Definition pause_resume_cycles (cs : list (Q * Q)) (s : MP3Player)
  : MP3Player :=
  fold_left (fun st c => pause_resume c st) cs s.

(** A track started at time 100 that has stopped sounding since. *)
Definition ended_track : MP3Player :=
  set_length 180 (set_clock false 100 0 0 (init ["a.mp3"%string])).

(** A three-track library. *)
Definition three_tracks : list string :=
  ["a.mp3"; "b.mp3"; "c.mp3"]%string.

(** ** Invariants *)

(** The cell the peak loop writes at a band holding spectrum value [a]
    and old peak [p]. *)
Definition peak_cell (a p : Q) : Q :=
  if Qlt_le_dec p a then a else p * 0.94.

(** What every frame pair of the program satisfies: 64 bands each, all
    within [0, 2.2], and a peak never below 0.94 of its band. *)
Definition frame_ok (audio peaks : list Q) : Prop :=
  length audio = 64%nat /\ length peaks = 64%nat /\
  (forall i a, audio !! i = Some a -> 0 <= a <= 2.2) /\
  (forall i p, peaks !! i = Some p -> 0 <= p <= 2.2) /\
  (forall i a p, audio !! i = Some a -> peaks !! i = Some p -> 0.94 * a <= p).

Definition visual_inv (s : MP3Player) : Prop :=
  frame_ok (audio_data s) (peak_data s).

Definition beat_inv (s : MP3Player) : Prop := 0 <= beat_intensity s <= 1.

Definition is_playing (e : TickEnv) (s : MP3Player) : bool :=
  tick_busy e && negb (paused s).

Definition same_visual (s s' : MP3Player) : Prop :=
  audio_data s' = audio_data s /\ peak_data s' = peak_data s /\
  beat_intensity s' = beat_intensity s.

Definition clock_inv (t : Q) (s : MP3Player) : Prop :=
  0 <= seek_offset s /\ song_start_time s <= t /\
  (paused s = true -> song_start_time s <= pause_time s /\ pause_time s <= t).

(** ** Sample environments *)

(** A stand-in for [x ** 1.3] where a concrete run is evaluated. *)
Definition sample_pow (x : Q) : Q := x.

(** A tick while music sounds: sine 0, every draw 1/2. *)
Definition sounding_tick : TickEnv := mkTickEnv true 0 (fun _ => 1 # 2).

(** A tick while the mixer is silent. *)
Definition silent_tick : TickEnv := mkTickEnv false 0 (fun _ => 1 # 2).

(** The player after one sounding tick on a three-track library. *)
Definition after_one_tick : MP3Player :=
  generate_visualizer_data sample_pow sounding_tick (init three_tracks).

(** ** Further parts of the program *)

(** [load_songs()], with [found] the sorted listing of the directory. *)
Definition load_songs (found : list string) (s : MP3Player) : MP3Player :=
  set_songs found s.

(** The last statement of one pass of the main loop:
    [if not mixer.music.get_busy() and not player.paused and player.songs:
       player.next_song()]. *)
Definition auto_advance (busy_now : bool) (e : PlayEnv) (s : MP3Player)
  : option MP3Player :=
  if negb busy_now && negb (paused s) && negb (no_songs s)
  then next_song e s else Some s.

(** [player.songs[player.current_song_index]] as [draw_ui] reads it for
    the title line: outer [None] is the [IndexError], which no handler
    catches there; [Some None] is the branch without songs. *)
Definition song_name (s : MP3Player) : option (option string) :=
  if no_songs s then Some None
  else match py_index (songs s) (current_song_index s) with
       | Some name => Some (Some name)
       | None => None
       end.

(** [len(c * n)] for a one-character string [c]: a non-positive count
    gives the empty string. *)
Definition py_repeat_len (n : Z) : nat := Z.to_nat n.

(** The two runs of the volume indicator of [draw_ui]. *)
Definition volume_filled (s : MP3Player) : Z := py_int (volume s * 10).

Definition volume_empty (s : MP3Player) : Z := (10 - py_int (volume s * 10))%Z.

Definition volume_bar_len (s : MP3Player) : nat :=
  (py_repeat_len (volume_filled s) + py_repeat_len (volume_empty s))%nat.

(** [s[:k]] on a Python sequence. *)
Definition py_prefix {A : Type} (l : list A) (k : Z) : list A :=
  if (0 <=? k)%Z then take (Z.to_nat k) l
  else take (Z.to_nat (Z.of_nat (length l) + k)) l.

(** The truncation of the title line in [draw_ui]; [dots] is ["..."]. *)
Definition truncate_info {A : Type} (dots : list A) (width : Z)
    (song_info : list A) : list A :=
  if (width - 4 <? Z.of_nat (length song_info))%Z
  then py_prefix song_info (width - 7) ++ dots
  else song_info.

(** Float [a // b] and [a % b]. *)
Definition py_floordiv (a b : Q) : Q := inject_Z (Qfloor (a / b)).

Definition py_mod (a b : Q) : Q := a - b * py_floordiv a b.

(** The minutes and seconds printed by [draw_progress_bar] for a time
    [x]: [int(x // 60)] and [int(x % 60)]. *)
Definition clock_minutes (x : Q) : Z := py_int (py_floordiv x 60).

Definition clock_seconds (x : Q) : Z := py_int (py_mod x 60).

(** ** Cells of [draw_visualizer] *)

Inductive Glyph : Type :=
| FullBlock       (* U+2588 *)
| DarkShade       (* U+2593 *)
| MediumShade     (* U+2592 *)
| PeakBar.        (* U+25AC *)

(** One [stdscr.addstr(row, col, char, color)] call: the colour is a
    pair number, possibly with [A_BOLD]. *)
Record Cell : Type := mkCell {
  cell_row : Z;
  cell_col : Z;
  cell_glyph : Glyph;
  cell_pair : Z;
  cell_bold : bool
}.

(** [range(n)] for an integer [n]. *)
Definition zrange (n : Z) : list Z := map Z.of_nat (seq 0 (Z.to_nat n)).

(** [min(int(value * (height - 2)), height - 2)], used for the bar and
    for the peak. *)
Definition bar_height (value : Q) (height : Z) : Z :=
  Z.min (py_int (value * inject_Z (height - 2))) (height - 2).

Definition height_percent (j bar_h : Z) : Q :=
  inject_Z j / inject_Z (Z.max 1 bar_h).

(** The gradient: glyph, colour pair and boldness of cell [j] of a bar. *)
Definition gradient (j bar_h : Z) : Glyph * Z * bool :=
  let hp := height_percent j bar_h in
  if Qlt_le_dec 0.85 hp then (FullBlock, 3%Z, true)
  else if Qlt_le_dec 0.6 hp then (FullBlock, 3%Z, false)
  else if Qlt_le_dec 0.3 hp then (DarkShade, 2%Z, false)
  else (MediumShade, 1%Z, false).

(** Brightness rank of a gradient step, dimmest first. *)
Definition brightness (g : Glyph * Z * bool) : Z :=
  (2 * snd (fst g) + (if snd g then 1 else 0))%Z.

(** The guard [0 <= row < curses.LINES and 0 <= col < curses.COLS]. *)
Definition on_screen (lines cols row col : Z) : bool :=
  (0 <=? row)%Z && (row <? lines)%Z && (0 <=? col)%Z && (col <? cols)%Z.

(** One horizontal run of a bar: the inner [for w in range(...)] loop.
    The cells are the [addstr] calls made; a failing call is swallowed. *)
Definition draw_run (lines cols row col_start current_bar_width : Z)
    (g : Glyph * Z * bool) : list Cell :=
  flat_map (fun w =>
    let col := (col_start + w)%Z in
    if on_screen lines cols row col
    then [mkCell row col (fst (fst g)) (snd (fst g)) (snd g)] else [])
    (zrange current_bar_width).

(** The body of the bar loop for one band. *)
Definition draw_bar (lines cols start_row height : Z)
    (col_start current_bar_width : Z) (value peak : Q) : list Cell :=
  let bar_h := bar_height value height in
  let peak_h := bar_height peak height in
  flat_map (fun j =>
    let row := (start_row + height - 2 - j)%Z in
    draw_run lines cols row col_start current_bar_width (gradient j bar_h))
    (zrange bar_h)
  ++ (if (bar_h + 2 <? peak_h)%Z then
        let peak_row := (start_row + height - 2 - peak_h)%Z in
        draw_run lines cols peak_row col_start current_bar_width
          (PeakBar, 3%Z, true)
      else []).

(** All bars: band [i] is drawn from [data[i]] and [peaks[i]] in the
    columns the layout gives it.  Both arrays have the length the layout
    was computed for in every state the program builds. *)
Definition draw_bars (lines cols start_row height width : Z)
    (data peaks : list Q) : list Cell :=
  concat
    (zip_with (fun c vp =>
       draw_bar lines cols start_row height (fst c) (snd c) (fst vp) (snd vp))
       (bar_layout (length data) width) (zip data peaks)).

Section Renderer.

(** [x ** 1.3], as in the visualizer. *)
Variable pow13 : Q -> Q.

(** [draw_visualizer(stdscr, player, start_row, height, width)]: the
    player after the tick and the cells written. *)
Definition draw_visualizer (lines cols : Z) (e : TickEnv)
    (start_row height width : Z) (s : MP3Player) : MP3Player * list Cell :=
  let s' := generate_visualizer_data pow13 e s in
  (s', draw_bars lines cols start_row height width
         (audio_data s') (peak_data s')).

(** The visualizer part of [draw_ui] on a [height] x [width] window. *)
Definition draw_ui_visualizer (lines cols : Z) (e : TickEnv)
    (height width : Z) (s : MP3Player) : MP3Player * list Cell :=
  let visualizer_height := (height - 12)%Z in
  let visualizer_width := (width - 28)%Z in
  if (5 <? visualizer_height)%Z
  then draw_visualizer lines cols e 6 visualizer_height visualizer_width s
  else (s, []).

End Renderer.

(** ** Further sample data *)

(** A reading at time 130 while the mixer is busy. *)
Definition at_130 : PosEnv := mkPosEnv true 130.

(** A restart that succeeds at time 131, and one whose load fails. *)
Definition restart_at_131 : PlayEnv := mkPlayEnv true 131 (Some 180).

Definition failing_load : PlayEnv := mkPlayEnv false 131 None.

(** The last of three tracks is selected, then the directory is listed
    again and only one file is left. *)
Definition stale_player : MP3Player :=
  load_songs ["a.mp3"%string] (set_index 2 (init three_tracks)).

(** The index addresses a song, or there is none to address. *)
Definition index_ok (s : MP3Player) : Prop :=
  no_songs s = true \/
  (0 <= current_song_index s < Z.of_nat (length (songs s)))%Z.

(** Everything but the visualizer fields is the same. *)
Definition same_playback (s s' : MP3Player) : Prop :=
  songs s' = songs s /\ current_song_index s' = current_song_index s /\
  paused s' = paused s /\ volume s' = volume s /\ running s' = running s /\
  song_start_time s' = song_start_time s /\ pause_time s' = pause_time s /\
  seek_offset s' = seek_offset s /\
  current_song_length s' = current_song_length s.

(** The value the five band loops of [generate_visualizer_data] leave in
    band [i], written as one expression per group; [pow13] is
    [x ** 1.3]. *)
Definition band_strength (pow13 : Q -> Q) (rnd : nat -> Q) (b : Q) (i : nat)
  : Q :=
  if (i <? 16)%nat then
    pow13 b * 1.6 * (rnd (S i) * 0.6 + 0.7) * (1.0 - of_nat i / 25)
  else if (i <? 28)%nat then
    b * 1.35 * (rnd (S i) * 0.7 + 0.6) * (1.0 - (of_nat i - 16) / 20)
  else if (i <? 41)%nat then
    b * 1.2 * (rnd (S i) * 0.8 + 0.5)
  else if (i <? 53)%nat then
    b * 1.0 * (rnd (S i) * 0.9 + 0.4)
  else
    b * 0.85 * (rnd (S i) * 1.0 + 0.3) * (0.9 - (of_nat i - 53) / 18).

(** Draws that always trigger the spike on band 32. *)
Definition spiking_tick : TickEnv :=
  mkTickEnv true 0 (fun k => if (k =? 65)%nat then 0 else 1 # 2).

(** ** The fading branch in binary64

    The arrays come from [np.zeros(64)] and [beat_intensity] is a Python
    float, so lines 228-230 multiply IEEE binary64 numbers: [x *= c] is
    one product rounded to the nearest double.  The three factors are the
    doubles nearest to 0.82, 0.88 and 0.85. *)
Definition fade_audio64 (x : float) : float :=
  (x * 0x1.a3d70a3d70a3dp-1)%float.

Definition fade_peak64 (x : float) : float :=
  (x * 0x1.c28f5c28f5c29p-1)%float.

Definition fade_beat64 (x : float) : float :=
  (x * 0x1.b333333333333p-1)%float.

(** The else branch of [generate_visualizer_data] on the three fields. *)
Definition fade64 (v : list float * list float * float)
  : list float * list float * float :=
  (map fade_audio64 (fst (fst v)), map fade_peak64 (snd (fst v)),
   fade_beat64 (snd v)).

(** [n] consecutive not-playing ticks. *)
Definition fade_ticks64 (n : nat) (v : list float * list float * float)
  : list float * list float * float :=
  Nat.iter n fade64 v.

(** Frames whose bands all hold 1.0, with beat intensity 1.0. *)
Definition all_ones64 : list float * list float * float :=
  (replicate 64 1%float, replicate 64 1%float, 1%float).

(** * Results *)

(** ** Python primitives *)

Lemma py_max_lower (a b : Q) : a <= py_max a b.
Proof. unfold py_max. destruct (Qlt_le_dec a b); lra. Qed.

Lemma py_max_is_max (a b : Q) : py_max a b == Qmax a b.
Proof.
  unfold py_max. destruct (Qlt_le_dec a b) as [Hlt | Hle].
  - symmetry. apply Q.max_r. lra.
  - symmetry. apply Q.max_l. exact Hle.
Qed.

Lemma py_index_in_range {A : Type} (l : list A) (i : Z) :
  (0 <= i < Z.of_nat (length l))%Z -> is_Some (py_index l i).
Proof.
  intros Hi. unfold py_index.
  destruct (Z.leb_spec 0 i) as [_ | Hneg]; [| lia].
  apply lookup_lt_is_Some. lia.
Qed.

Lemma no_songs_false (s : MP3Player) : songs s <> [] -> no_songs s = false.
Proof. unfold no_songs. destruct (songs s); congruence. Qed.

(** ** Playback clock *)

Lemma play_song_index (e : PlayEnv) (p : Q) (s s' : MP3Player) :
  play_song e p s = Some s' -> current_song_index s' = current_song_index s.
Proof.
  unfold play_song. intros H.
  destruct (no_songs s); [congruence |].
  destruct (py_index _ _); [| discriminate].
  destruct (play_ok e); inversion H; reflexivity.
Qed.

Lemma play_song_starts (e : PlayEnv) (p : Q) (s : MP3Player) :
  no_songs s = false ->
  is_Some (py_index (songs s) (current_song_index s)) ->
  play_ok e = true ->
  play_song e p s =
    Some (set_length (match probe e with Some len => len | None => 0 end)
            (set_clock false (play_now e) (pause_time s) p s)).
Proof.
  intros Hs [x Hx] Hok. unfold play_song. rewrite Hs, Hx, Hok. reflexivity.
Qed.

Lemma pause_resume_unpaused (c : Q * Q) (s : MP3Player) :
  paused s = false -> paused (pause_resume c s) = false.
Proof. intros H. unfold pause_resume, toggle_pause. rewrite H. reflexivity. Qed.

Lemma pause_resume_cycles_unpaused (cs : list (Q * Q)) (s : MP3Player) :
  paused s = false -> paused (pause_resume_cycles cs s) = false.
Proof.
  revert s. induction cs as [| c cs IH]; intros s H; [exact H |].
  apply IH, pause_resume_unpaused, H.
Qed.

Lemma pause_resume_position (b : bool) (t1 t2 : Q) (s : MP3Player) :
  paused s = false ->
  get_song_position (mkPosEnv b t2) (pause_resume (t1, t2) s)
  == get_song_position (mkPosEnv b t1) s.
Proof.
  intros H. unfold get_song_position, pause_resume, toggle_pause.
  rewrite H. simpl. destruct b; simpl; [lra | reflexivity].
Qed.

(** C1 (as stated, refuted): the stated formula is not what
    [get_song_position] returns once the mixer is no longer busy.  A track
    started at time 100 and asked for its position at time 400, after the
    audio has ended, reports 0 where the formula gives 300. *)
Lemma position_formula_fails_when_idle :
  play_song (mkPlayEnv true 100 (Some 180)) 0 (init ["a.mp3"%string])
    = Some ended_track /\
  get_song_position (mkPosEnv false 400) ended_track = 0 /\
  position_formula (mkPosEnv false 400) ended_track == 300 /\
  ~ (get_song_position (mkPosEnv false 400) ended_track
     == position_formula (mkPosEnv false 400) ended_track).
Proof.
  split; [reflexivity |]. split; [reflexivity |].
  split; [reflexivity |]. vm_compute. discriminate.
Qed.

(** C1 (amended): for every player state and every observation,
    [get_song_position] returns the seek offset plus the elapsed time
    (to the pause stamp when paused, to the current time otherwise) when
    the mixer reports busy, and 0 when it does not. *)
Theorem get_song_position_spec (o : PosEnv) (s : MP3Player) :
  get_song_position o s == (if busy o then position_formula o s else 0).
Proof.
  unfold get_song_position, position_formula.
  destruct (busy o); simpl; reflexivity.
Qed.

(** C2: after any number of earlier pause/resume cycles, a pause at [t1]
    followed by a resume at [t2] reports at [t2] the position that was
    reported at [t1], however far apart the two times are. *)
Theorem pause_resume_keeps_position
    (cs : list (Q * Q)) (b : bool) (t1 t2 : Q) (s : MP3Player) :
  paused s = false ->
  let s' := pause_resume_cycles cs s in
  get_song_position (mkPosEnv b t2) (toggle_pause t2 (toggle_pause t1 s'))
  == get_song_position (mkPosEnv b t1) s'.
Proof.
  intros H s'. apply (pause_resume_position b t1 t2 s').
  apply pause_resume_cycles_unpaused, H.
Qed.

Lemma pause_resume_keeps_position_witness :
  paused ended_track = false /\
  get_song_position (mkPosEnv true 250)
    (toggle_pause 250
       (toggle_pause 130 (pause_resume_cycles [(110, 115)] ended_track)))
  == get_song_position (mkPosEnv true 130)
       (pause_resume_cycles [(110, 115)] ended_track).
Proof.
  split; [reflexivity |].
  apply (pause_resume_keeps_position [(110, 115)] true 130 250 ended_track).
  reflexivity.
Defined.

(** ** Seeking *)

(** Whatever path [seek_backward] takes, a non-negative offset stays
    non-negative. *)
Lemma seek_backward_offset_nonneg
    (g : bool) (o : PosEnv) (e : PlayEnv) (s : MP3Player) :
  0 <= seek_offset s -> 0 <= seek_offset (seek_backward g o e s).
Proof.
  intros H. unfold seek_backward.
  destruct (no_songs s || negb g); [exact H |].
  unfold play_song.
  destruct (no_songs s); [exact H |].
  destruct (py_index _ _); [| exact H].
  destruct (play_ok e); [| exact H].
  simpl. apply py_max_lower.
Qed.

(** C6: when [seek_backward] restarts the track (there are songs, the
    mixer is busy, the track loads), the new offset is
    [max(0, position - 10)], hence never negative; from position 3 it is
    exactly 0. *)
Theorem seek_backward_clamps
    (g : bool) (o : PosEnv) (e : PlayEnv) (s : MP3Player) :
  no_songs s = false ->
  g = true ->
  is_Some (py_index (songs s) (current_song_index s)) ->
  play_ok e = true ->
  let s' := seek_backward g o e s in
  seek_offset s' = py_max 0 (get_song_position o s - 10) /\
  seek_offset s' == Qmax 0 (get_song_position o s - 10) /\
  0 <= seek_offset s' /\
  (get_song_position o s == 3 -> seek_offset s' = 0).
Proof.
  intros Hs Hg Hidx Hok s'.
  assert (Hoff : seek_offset s' = py_max 0 (get_song_position o s - 10)).
  { subst s'. unfold seek_backward. rewrite Hs, Hg. simpl.
    rewrite (play_song_starts e _ s Hs Hidx Hok). reflexivity. }
  rewrite Hoff. repeat split.
  - apply py_max_is_max.
  - apply py_max_lower.
  - intros H3. unfold py_max.
    destruct (Qlt_le_dec 0 (get_song_position o s - 10)); [lra | reflexivity].
Qed.

Lemma seek_backward_clamps_witness :
  get_song_position (mkPosEnv true 103) ended_track == 3 /\
  seek_offset (seek_backward true (mkPosEnv true 103)
                 (mkPlayEnv true 104 (Some 180)) ended_track) = 0 /\
  song_start_time (seek_backward true (mkPosEnv true 103)
                     (mkPlayEnv true 104 (Some 180)) ended_track) = 104.
Proof.
  pose proof (seek_backward_clamps true (mkPosEnv true 103)
                (mkPlayEnv true 104 (Some 180)) ended_track
                eq_refl eq_refl (mk_is_Some _ _ eq_refl) eq_refl) as H.
  simpl in H. destruct H as (_ & _ & _ & H3).
  split; [reflexivity |]. split; [apply H3; reflexivity | reflexivity].
Defined.

(** ** Track navigation *)

Lemma play_song_after_wrap (e : PlayEnv) (i : Z) (s : MP3Player) :
  songs s <> [] ->
  let n := Z.of_nat (length (songs s)) in
  exists s', play_song e 0 (set_index (i mod n) s) = Some s' /\
             current_song_index s' = (i mod n)%Z.
Proof.
  intros Hne n.
  assert (Hn : (0 < n)%Z).
  { subst n. destruct (songs s); [congruence | simpl; lia]. }
  pose proof (Z.mod_pos_bound i n Hn) as Hb.
  destruct (py_index_in_range (songs s) (i mod n)%Z Hb) as [x Hx].
  unfold play_song. simpl.
  replace (no_songs (set_index (i mod n) s)) with false
    by (symmetry; apply (no_songs_false (set_index (i mod n) s)), Hne).
  fold n. rewrite Hx.
  destruct (play_ok e); eexists; split; reflexivity.
Qed.

(** C8: on a non-empty library of [n] tracks [next_song] returns
    normally and moves index [i] to [(i + 1) mod n]; [prev_song] moves it
    to [(i - 1) mod n]. *)
Theorem track_navigation_wraps (e : PlayEnv) (s : MP3Player) :
  songs s <> [] ->
  let n := Z.of_nat (length (songs s)) in
  (exists s', next_song e s = Some s' /\
              current_song_index s' = ((current_song_index s + 1) mod n)%Z) /\
  (exists s', prev_song e s = Some s' /\
              current_song_index s' = ((current_song_index s - 1) mod n)%Z).
Proof.
  intros Hne n. unfold next_song, prev_song.
  rewrite (no_songs_false s Hne).
  split; apply play_song_after_wrap, Hne.
Qed.

(** With three tracks: next from index 2 gives 0, previous from index 0
    gives 2. *)
Lemma track_navigation_wraps_witness :
  (exists s', next_song (mkPlayEnv true 100 (Some 180))
                (set_index 2 (init three_tracks)) = Some s' /\
              current_song_index s' = 0%Z) /\
  (exists s', prev_song (mkPlayEnv true 100 (Some 180))
                (init three_tracks) = Some s' /\
              current_song_index s' = 2%Z).
Proof.
  split.
  - apply (track_navigation_wraps (mkPlayEnv true 100 (Some 180))
             (set_index 2 (init three_tracks))).
    discriminate.
  - apply (track_navigation_wraps (mkPlayEnv true 100 (Some 180))
             (init three_tracks)).
    discriminate.
Defined.

(** ** Progress bar *)

Lemma progress_zero_length (position len : Q) :
  len == 0 -> progress position len = 0.
Proof.
  intros H. unfold progress. destruct (Qlt_le_dec 0 len); [lra | reflexivity].
Qed.

Lemma py_int_zero_times (x : Q) : py_int (0 * x) = 0%Z.
Proof. reflexivity. Qed.

(** C9: a track that loads while its length probe fails gets the cached
    length 0, and with that length the progress is 0 and no cell of the
    bar is filled, whatever the clock says. *)
Theorem probe_failure_zero_progress
    (e : PlayEnv) (start_pos : Q) (s : MP3Player) :
  no_songs s = false ->
  is_Some (py_index (songs s) (current_song_index s)) ->
  play_ok e = true ->
  probe e = None ->
  exists s', play_song e start_pos s = Some s' /\
    current_song_length s' = 0 /\
    forall (o : PosEnv) (width : Z),
      progress (get_song_position o s') (get_song_length s') = 0 /\
      progress_filled o width s' = 0%Z.
Proof.
  intros Hs Hidx Hok Hprobe.
  rewrite (play_song_starts e start_pos s Hs Hidx Hok), Hprobe.
  eexists. split; [reflexivity |]. split; [reflexivity |].
  intros o width. unfold progress_filled, get_song_length. simpl.
  rewrite progress_zero_length by reflexivity.
  split; [reflexivity | apply py_int_zero_times].
Qed.

Lemma probe_failure_zero_progress_witness :
  exists s', play_song (mkPlayEnv true 100 None) 0 (init three_tracks) = Some s' /\
    current_song_length s' = 0 /\
    forall (o : PosEnv) (width : Z),
      progress (get_song_position o s') (get_song_length s') = 0 /\
      progress_filled o width s' = 0%Z.
Proof.
  apply (probe_failure_zero_progress (mkPlayEnv true 100 None) 0
           (init three_tracks));
    [reflexivity | apply (mk_is_Some _ "a.mp3"%string); reflexivity
    | reflexivity | reflexivity].
Defined.

(** ** Bar layout *)

Lemma total_bar_columns (bar_width remainder : Z) (n a : nat) (c : Z) :
  total_width (bar_columns bar_width remainder (seq a n) c)
  = (Z.of_nat n * bar_width
     + Z.max 0 (Z.min (remainder - Z.of_nat a) (Z.of_nat n)))%Z.
Proof.
  revert a c. induction n as [| n IH]; intros a c.
  - simpl. lia.
  - cbn [seq bar_columns total_width fold_right snd].
    fold (total_width
            (bar_columns bar_width remainder (seq (S a) n)
               (c + (bar_width + (if (Z.of_nat a <? remainder)%Z then 1 else 0)))%Z)).
    rewrite IH.
    destruct (Z.ltb_spec (Z.of_nat a) remainder); lia.
Qed.

Lemma total_bar_layout (width : Z) :
  total_width (bar_layout 64 width)
  = (64 * Z.max 1 ((width - 4) / 64) + (width - 4) mod 64)%Z.
Proof.
  unfold bar_layout, range. rewrite total_bar_columns.
  pose proof (Z.mod_pos_bound (width - 4) 64 eq_refl).
  change (Z.of_nat (64 - 0)) with 64%Z. change (Z.of_nat 64) with 64%Z.
  change (Z.of_nat 0) with 0%Z. lia.
Qed.

(** ** Arrays *)

Lemma fold_left_keeps_length {A : Type} (step : list A -> nat -> list A)
    (idx : list nat) (l : list A) :
  (forall l' i, length (step l' i) = length l') ->
  length (fold_left step idx l) = length l.
Proof.
  intros Hstep. revert l. induction idx as [| i idx IH]; intros l.
  - reflexivity.
  - simpl. rewrite IH. apply Hstep.
Qed.

Lemma np_clip_bounds (x : Q) : 0 <= np_clip 0 2.2 x <= 2.2.
Proof.
  unfold np_clip.
  destruct (Qlt_le_dec x 0); [lra |].
  destruct (Qlt_le_dec 2.2 x); lra.
Qed.

Lemma peak_step_length (audio peaks : list Q) (i : nat) :
  length (peak_step audio peaks i) = length peaks.
Proof.
  unfold peak_step.
  destruct (audio !! i); [| reflexivity].
  destruct (peaks !! i) as [p |]; [| reflexivity].
  destruct (Qlt_le_dec p _); apply length_insert.
Qed.

Lemma peak_step_cell (audio peaks : list Q) (i : nat) (a p : Q) :
  audio !! i = Some a -> peaks !! i = Some p ->
  peak_step audio peaks i = <[i := peak_cell a p]> peaks.
Proof.
  intros Ha Hp. unfold peak_step, peak_cell. rewrite Ha, Hp.
  destruct (Qlt_le_dec p a); reflexivity.
Qed.

Lemma update_peaks_length (audio peaks : list Q) :
  length (update_peaks audio peaks) = length peaks.
Proof.
  unfold update_peaks. apply fold_left_keeps_length.
  intros l' i. apply peak_step_length.
Qed.

(** After the first [k] iterations the bands below [k] hold their new
    cell and the others are untouched. *)
Lemma peak_loop_prefix (audio peaks : list Q) (k : nat) :
  (k <= length audio)%nat ->
  length audio = length peaks ->
  let done := fold_left (peak_step audio) (seq 0 k) peaks in
  (forall i, (k <= i)%nat -> done !! i = peaks !! i) /\
  (forall i a p, (i < k)%nat -> audio !! i = Some a -> peaks !! i = Some p ->
                 done !! i = Some (peak_cell a p)).
Proof.
  intros Hk Hlen. induction k as [| k IH].
  - simpl. split; [reflexivity | intros; lia].
  - destruct IH as [IHrest IHdone]; [lia |].
    cbn zeta in *. rewrite seq_S, fold_left_app. simpl.
    set (prev := fold_left (peak_step audio) (seq 0 k) peaks) in *.
    assert (Hprev : length prev = length peaks).
    { subst prev. apply fold_left_keeps_length.
      intros l' i. apply peak_step_length. }
    destruct (lookup_lt_is_Some_2 audio k) as [ak Hak]; [lia |].
    destruct (lookup_lt_is_Some_2 peaks k) as [pk Hpk]; [lia |].
    assert (Hprevk : prev !! k = Some pk) by (rewrite IHrest; [exact Hpk | lia]).
    rewrite (peak_step_cell audio prev k ak pk Hak Hprevk).
    split.
    + intros i Hi. rewrite list_lookup_insert_ne by lia. apply IHrest. lia.
    + intros i a p Hi Ha Hp.
      destruct (decide (i = k)) as [-> | Hne].
      * rewrite list_lookup_insert_eq by lia. congruence.
      * rewrite list_lookup_insert_ne by lia. apply IHdone; [lia | done | done].
Qed.

Lemma update_peaks_lookup (audio peaks : list Q) (i : nat) (a p : Q) :
  length audio = length peaks ->
  audio !! i = Some a -> peaks !! i = Some p ->
  update_peaks audio peaks !! i = Some (peak_cell a p).
Proof.
  intros Hlen Ha Hp. unfold update_peaks, range. rewrite Nat.sub_0_r.
  apply (peak_loop_prefix audio peaks (length audio)); [lia | done | | done | done].
  apply lookup_lt_is_Some. eauto.
Qed.

Lemma lookup_map_Some {A B : Type} (f : A -> B) (l : list A) (i : nat) (y : B) :
  map f l !! i = Some y -> exists x, l !! i = Some x /\ y = f x.
Proof.
  revert i. induction l as [| x l IH]; intros [| i] H; simpl in *;
    try discriminate.
  - inversion H. eauto.
  - apply IH, H.
Qed.

Lemma lookup_map {A B : Type} (f : A -> B) (l : list A) (i : nat) (x : A) :
  l !! i = Some x -> map f l !! i = Some (f x).
Proof.
  revert i. induction l as [| a l IH]; intros [| i] H; simpl in *;
    try discriminate.
  - inversion H. reflexivity.
  - apply IH, H.
Qed.

(** ** Visualizer invariants *)

Lemma peak_cell_bounds (a p : Q) :
  0 <= a <= 2.2 -> 0 <= p <= 2.2 ->
  0 <= peak_cell a p <= 2.2 /\ 0.94 * a <= peak_cell a p.
Proof.
  intros Ha Hp. unfold peak_cell. destruct (Qlt_le_dec p a); lra.
Qed.

Lemma play_song_visual (e : PlayEnv) (q : Q) (s s' : MP3Player) :
  play_song e q s = Some s' ->
  audio_data s' = audio_data s /\ peak_data s' = peak_data s /\
  beat_intensity s' = beat_intensity s.
Proof.
  unfold play_song. intros H.
  destruct (no_songs s); [inversion H; done |].
  destruct (py_index _ _); [| discriminate].
  destruct (play_ok e); inversion H; done.
Qed.

Section VisualizerProofs.

Variable pow13 : Q -> Q.

Lemma raw_frame_length (rnd : nat -> Q) (b : Q) :
  length (raw_frame pow13 rnd b) = 64%nat.
Proof.
  unfold raw_frame. cbv zeta.
  repeat (rewrite fold_left_keeps_length;
          [| intros l' i; apply length_insert]).
  reflexivity.
Qed.

Lemma add_spike_length (rnd : nat -> Q) (nd : list Q) :
  length (add_spike rnd nd) = length nd.
Proof.
  unfold add_spike.
  destruct (Qlt_le_dec _ _); [| reflexivity].
  destruct (np_slot _ _) as [k |]; [| reflexivity].
  destruct (nd !! k); [apply length_insert | reflexivity].
Qed.

(** The playing branch and the fading branch, as equations. *)
Lemma tick_playing (e : TickEnv) (s : MP3Player) :
  is_playing e s = true ->
  generate_visualizer_data pow13 e s =
    let b := smoothed_beat e s in
    let new_data :=
      map (np_clip 0 2.2)
        (add_spike (tick_rnd e) (raw_frame pow13 (tick_rnd e) b)) in
    let audio :=
      zip_with (fun a n => a * 0.35 + n * 0.65) (audio_data s) new_data in
    set_visual audio (update_peaks audio (peak_data s)) b s.
Proof.
  unfold is_playing, generate_visualizer_data. intros ->. reflexivity.
Qed.

Lemma tick_fading (e : TickEnv) (s : MP3Player) :
  is_playing e s = false ->
  generate_visualizer_data pow13 e s =
    set_visual (map (fun a => a * 0.82) (audio_data s))
               (map (fun p => p * 0.88) (peak_data s))
               (beat_intensity s * 0.85) s.
Proof.
  unfold is_playing, generate_visualizer_data. intros ->. reflexivity.
Qed.

Lemma tick_paused (e : TickEnv) (s : MP3Player) :
  paused (generate_visualizer_data pow13 e s) = paused s.
Proof.
  unfold generate_visualizer_data.
  destruct (tick_busy e && negb (paused s)); reflexivity.
Qed.

Lemma tick_visual_inv (e : TickEnv) (s : MP3Player) :
  visual_inv s -> visual_inv (generate_visualizer_data pow13 e s).
Proof.
  intros (Hla & Hlp & Ha & Hp & Hap). unfold visual_inv.
  destruct (is_playing e s) eqn:Hplay.
  - rewrite (tick_playing e s Hplay). cbv zeta. cbn [audio_data peak_data set_visual].
    set (new_data := map _ _).
    set (audio := zip_with _ _ _).
    assert (Hnew : length new_data = 64%nat).
    { subst new_data. rewrite length_map, add_spike_length.
      apply raw_frame_length. }
    assert (Hlen : length audio = 64%nat).
    { subst audio. rewrite length_zip_with. lia. }
    assert (Haudio : forall i a, audio !! i = Some a -> 0 <= a <= 2.2).
    { intros i a' Hi. subst audio.
      apply lookup_zip_with_Some in Hi as (a & n & -> & Hai & Hni).
      subst new_data. apply lookup_map_Some in Hni as (x & _ & ->).
      pose proof (np_clip_bounds x). pose proof (Ha i a Hai). lra. }
    assert (Hcell : forall i p', update_peaks audio (peak_data s) !! i = Some p' ->
              exists a p, audio !! i = Some a /\ peak_data s !! i = Some p /\
                          p' = peak_cell a p).
    { intros i p' Hi.
      assert (Hlt : (i < 64)%nat).
      { rewrite <- Hlp, <- (update_peaks_length audio). apply lookup_lt_is_Some. eauto. }
      destruct (lookup_lt_is_Some_2 audio i) as [a Hai]; [lia |].
      destruct (lookup_lt_is_Some_2 (peak_data s) i) as [p Hpi]; [lia |].
      exists a, p. repeat split; try done.
      rewrite (update_peaks_lookup audio (peak_data s) i a p) in Hi; congruence. }
    repeat split.
    + exact Hlen.
    + rewrite update_peaks_length. exact Hlp.
    + apply (Haudio i a H).
    + apply (Haudio i a H).
    + apply Hcell in H as (a & p0 & Hai & Hpi & ->).
      apply peak_cell_bounds; eauto.
    + apply Hcell in H as (a & p0 & Hai & Hpi & ->).
      apply peak_cell_bounds; eauto.
    + intros i a p' Hai Hi.
      apply Hcell in Hi as (a0 & p0 & Hai0 & Hpi & ->).
      assert (a0 = a) by congruence. subst a0.
      apply peak_cell_bounds; eauto.
  - rewrite (tick_fading e s Hplay). cbn [audio_data peak_data set_visual].
    repeat split.
    + rewrite length_map. exact Hla.
    + rewrite length_map. exact Hlp.
    + apply lookup_map_Some in H as (x & Hx & ->). pose proof (Ha i x Hx). lra.
    + apply lookup_map_Some in H as (x & Hx & ->). pose proof (Ha i x Hx). lra.
    + apply lookup_map_Some in H as (x & Hx & ->). pose proof (Hp i x Hx). lra.
    + apply lookup_map_Some in H as (x & Hx & ->). pose proof (Hp i x Hx). lra.
    + intros i a' p' Hai Hpi.
      apply lookup_map_Some in Hai as (a & Hai & ->).
      apply lookup_map_Some in Hpi as (p & Hpi & ->).
      pose proof (Hap i a p Hai Hpi). pose proof (Hp i p Hpi). lra.
Qed.

Lemma smoothed_beat_bounds (e : TickEnv) (s : MP3Player) :
  -1 <= tick_sin e <= 1 -> beat_inv s -> 0 <= smoothed_beat e s <= 1.
Proof.
  unfold beat_inv, smoothed_beat. intros Hsin Hb. cbv zeta.
  unfold Qdiv. change (/ 2) with (1 # 2).
  destruct (Qlt_le_dec _ _); lra.
Qed.

Lemma tick_beat_inv (e : TickEnv) (s : MP3Player) :
  -1 <= tick_sin e <= 1 -> beat_inv s ->
  beat_inv (generate_visualizer_data pow13 e s).
Proof.
  intros Hsin Hb. unfold beat_inv.
  destruct (is_playing e s) eqn:Hplay.
  - rewrite (tick_playing e s Hplay). cbv zeta. cbn [beat_intensity set_visual].
    apply smoothed_beat_bounds; assumption.
  - rewrite (tick_fading e s Hplay). cbn [beat_intensity set_visual].
    unfold beat_inv in Hb. lra.
Qed.

End VisualizerProofs.

Lemma sounding_tick_valid : valid_tick sounding_tick.
Proof. split; [simpl; lra | intros k; simpl; lra]. Qed.

(** ** Reachable states *)

Lemma toggle_pause_visual (t : Q) (s : MP3Player) :
  same_visual s (toggle_pause t s).
Proof. unfold toggle_pause. destruct (paused s); done. Qed.

Lemma next_song_visual (e : PlayEnv) (s s' : MP3Player) :
  next_song e s = Some s' -> same_visual s s'.
Proof.
  unfold next_song. destruct (no_songs s); intros H.
  - inversion H. done.
  - apply play_song_visual in H. exact H.
Qed.

Lemma prev_song_visual (e : PlayEnv) (s s' : MP3Player) :
  prev_song e s = Some s' -> same_visual s s'.
Proof.
  unfold prev_song. destruct (no_songs s); intros H.
  - inversion H. done.
  - apply play_song_visual in H. exact H.
Qed.

Lemma seek_forward_visual (g : bool) (o : PosEnv) (e : PlayEnv) (s : MP3Player) :
  same_visual s (seek_forward g o e s).
Proof.
  unfold seek_forward. destruct (no_songs s || negb g); [done |].
  cbv zeta. destruct (play_song _ _ _) eqn:H; [| done].
  apply play_song_visual in H. exact H.
Qed.

Lemma seek_backward_visual (g : bool) (o : PosEnv) (e : PlayEnv) (s : MP3Player) :
  same_visual s (seek_backward g o e s).
Proof.
  unfold seek_backward. destruct (no_songs s || negb g); [done |].
  cbv zeta. destruct (play_song _ _ _) eqn:H; [| done].
  apply play_song_visual in H. exact H.
Qed.

Lemma init_visual_inv (found : list string) : visual_inv (init found).
Proof.
  unfold visual_inv, frame_ok. cbn [audio_data peak_data init].
  split; [reflexivity |]. split; [reflexivity |].
  assert (Hz : forall i x, replicate 64 (0 : Q) !! i = Some x -> x = 0).
  { intros i x H. apply lookup_replicate in H as [-> _]. reflexivity. }
  repeat split; intros.
  - apply Hz in H as ->. lra.
  - apply Hz in H as ->. lra.
  - apply Hz in H as ->. lra.
  - apply Hz in H as ->. lra.
  - apply Hz in H as ->. apply Hz in H0 as ->. lra.
Qed.

Section Reachability.

Variable pow13 : Q -> Q.

Lemma exec_inv (c : Command) (s s' : MP3Player) :
  valid_command c -> exec pow13 c s = Some s' ->
  visual_inv s /\ beat_inv s -> visual_inv s' /\ beat_inv s'.
Proof.
  intros Hc Hex [Hv Hb].
  assert (Hsame : same_visual s s' -> visual_inv s' /\ beat_inv s').
  { intros (Ha & Hp & Hbi). unfold visual_inv, beat_inv.
    rewrite Ha, Hp, Hbi. split; assumption. }
  destruct c; simpl in Hex; try (injection Hex as <-).
  - apply Hsame, toggle_pause_visual.
  - apply Hsame, (next_song_visual e), Hex.
  - apply Hsame, (prev_song_visual e), Hex.
  - apply Hsame, seek_forward_visual.
  - apply Hsame, seek_backward_visual.
  - apply Hsame. done.
  - apply Hsame. done.
  - apply Hsame. done.
  - apply Hsame, (play_song_visual e 0), Hex.
  - destruct Hc as [Hsin _]. split.
    + apply tick_visual_inv, Hv.
    + apply tick_beat_inv; assumption.
Qed.

Lemma reachable_inv (s : MP3Player) :
  reachable pow13 s -> visual_inv s /\ beat_inv s.
Proof.
  induction 1 as [found | s c s' _ IH Hc Hex].
  - split; [apply init_visual_inv | unfold beat_inv; simpl; lra].
  - apply (exec_inv c s s' Hc Hex IH).
Qed.

End Reachability.

Lemma after_one_tick_reachable : reachable sample_pow after_one_tick.
Proof.
  apply (reach_step sample_pow (init three_tracks) (Tick sounding_tick)).
  - apply reach_init.
  - apply sounding_tick_valid.
  - reflexivity.
Qed.

(** ** Repeated scaling *)

Lemma iter_map_lookup {A : Type} (f : A -> A) (n : nat) (l : list A)
    (i : nat) (x : A) :
  l !! i = Some x -> Nat.iter n (map f) l !! i = Some (Nat.iter n f x).
Proof.
  intros H. induction n as [| n IH]; [exact H |].
  simpl. apply lookup_map, IH.
Qed.

Lemma iter_scale_le (n : nat) (c x : Q) :
  0 <= c <= 1 -> 0 <= x -> 0 <= Nat.iter n (fun y => y * c) x <= x.
Proof.
  intros Hc Hx. induction n as [| n IH].
  - simpl. lra.
  - simpl. nra.
Qed.

Section Claims.

Variable pow13 : Q -> Q.

Lemma is_playing_after_tick (e e0 : TickEnv) (s : MP3Player) :
  is_playing e (generate_visualizer_data pow13 e0 s) = is_playing e s.
Proof. unfold is_playing. rewrite tick_paused. reflexivity. Qed.

Lemma ticks_fading (es : list TickEnv) (s : MP3Player) :
  Forall (fun e => is_playing e s = false) es ->
  audio_data (ticks pow13 es s)
    = Nat.iter (length es) (map (fun a => a * 0.82)) (audio_data s) /\
  peak_data (ticks pow13 es s)
    = Nat.iter (length es) (map (fun p => p * 0.88)) (peak_data s) /\
  beat_intensity (ticks pow13 es s)
    = Nat.iter (length es) (fun b => b * 0.85) (beat_intensity s).
Proof.
  revert s. induction es as [| e es IH]; intros s Hes.
  - done.
  - apply Forall_cons in Hes as [He Hes].
    cbn [ticks fold_left length].
    fold (ticks pow13 es (generate_visualizer_data pow13 e s)).
    rewrite !Nat.iter_succ_r.
    destruct (IH (generate_visualizer_data pow13 e s)) as (Ha & Hp & Hb).
    { eapply Forall_impl; [exact Hes |].
      intros e'. simpl. rewrite is_playing_after_tick. done. }
    rewrite Ha, Hp, Hb, (tick_fading pow13 e s He). done.
Qed.

(** C3: in every reachable state, and after one more tick from it
    whether or not music is playing, both frames have 64 bands and
    every band of the spectrum frame and of the peak frame lies in
    [0, 2.2]. *)
Theorem frames_bounded (e : TickEnv) (s : MP3Player) (i : nat) :
  reachable pow13 s ->
  (i < 64)%nat ->
  (exists a p, audio_data s !! i = Some a /\ peak_data s !! i = Some p /\
               0 <= a <= 2.2 /\ 0 <= p <= 2.2) /\
  (exists a p,
      audio_data (generate_visualizer_data pow13 e s) !! i = Some a /\
      peak_data (generate_visualizer_data pow13 e s) !! i = Some p /\
      0 <= a <= 2.2 /\ 0 <= p <= 2.2).
Proof.
  intros Hr Hi.
  assert (Hinv : visual_inv s) by apply (reachable_inv pow13 s Hr).
  assert (Hbands : forall t, visual_inv t ->
            exists a p, audio_data t !! i = Some a /\ peak_data t !! i = Some p /\
                        0 <= a <= 2.2 /\ 0 <= p <= 2.2).
  { intros t (Hla & Hlp & Ha & Hp & _).
    destruct (lookup_lt_is_Some_2 (audio_data t) i) as [a Hai]; [lia |].
    destruct (lookup_lt_is_Some_2 (peak_data t) i) as [p Hpi]; [lia |].
    exists a, p. pose proof (Ha i a Hai). pose proof (Hp i p Hpi). tauto. }
  split; [apply Hbands, Hinv | apply Hbands, tick_visual_inv, Hinv].
Qed.

(** C4: at every tick from a reachable state and for every band, if
    the new spectrum value exceeds the old peak the new peak is that
    spectrum value; otherwise the new peak does not exceed the old one.
    This holds in the playing and in the not-playing branch. *)
Theorem peak_decay_law (e : TickEnv) (s : MP3Player) (i : nat) :
  reachable pow13 s ->
  (i < 64)%nat ->
  exists a' p p',
    audio_data (generate_visualizer_data pow13 e s) !! i = Some a' /\
    peak_data s !! i = Some p /\
    peak_data (generate_visualizer_data pow13 e s) !! i = Some p' /\
    (p < a' -> p' = a') /\
    (a' <= p -> p' <= p).
Proof.
  intros Hr Hi.
  destruct (reachable_inv pow13 s Hr) as [(Hla & Hlp & Ha & Hp & Hap) _].
  destruct (lookup_lt_is_Some_2 (audio_data s) i) as [a Hai]; [lia |].
  destruct (lookup_lt_is_Some_2 (peak_data s) i) as [p Hpi]; [lia |].
  pose proof (Ha i a Hai) as Hba. pose proof (Hp i p Hpi) as Hbp.
  pose proof (Hap i a p Hai Hpi) as Hrel.
  destruct (is_playing e s) eqn:Hplay.
  - rewrite (tick_playing pow13 e s Hplay). cbv zeta.
    cbn [audio_data peak_data set_visual].
    set (audio := zip_with _ _ _).
    assert (Hlen : length audio = 64%nat).
    { subst audio. rewrite length_zip_with, length_map, add_spike_length,
        raw_frame_length. lia. }
    destruct (lookup_lt_is_Some_2 audio i) as [a' Hai']; [lia |].
    exists a', p, (peak_cell a' p). split; [exact Hai' |]. split; [exact Hpi |].
    split; [apply update_peaks_lookup; [lia | done | done] |].
    unfold peak_cell. destruct (Qlt_le_dec p a'); split; intros; try lra; done.
  - rewrite (tick_fading pow13 e s Hplay). cbn [audio_data peak_data set_visual].
    exists (a * 0.82), p, (p * 0.88).
    split; [apply (lookup_map (fun a => a * 0.82)), Hai |]. split; [exact Hpi |].
    split; [apply (lookup_map (fun p => p * 0.88)), Hpi |].
    split; intros; lra.
Qed.

(** C10: the beat intensity of every reachable state lies in [0, 1],
    and one more tick with a sine in [-1, 1] keeps it there. *)
Theorem beat_intensity_in_unit_interval (e : TickEnv) (s : MP3Player) :
  reachable pow13 s ->
  -1 <= tick_sin e <= 1 ->
  0 <= beat_intensity s <= 1 /\
  0 <= beat_intensity (generate_visualizer_data pow13 e s) <= 1.
Proof.
  intros Hr Hsin. destruct (reachable_inv pow13 s Hr) as [_ Hb].
  split; [exact Hb | apply tick_beat_inv; assumption].
Qed.


(** C5 (amended): when the available width [width - 4] is at least the
    64 bands, the column widths [draw_visualizer] assigns in a
    reachable state sum to exactly the available width. *)
Theorem bar_fill_exact (e : TickEnv) (width : Z) (s : MP3Player) :
  reachable pow13 s ->
  (64 <= width - 4)%Z ->
  total_width (draw_visualizer_layout pow13 e width s) = (width - 4)%Z.
Proof.
  intros Hr Hw. unfold draw_visualizer_layout. cbv zeta.
  destruct (tick_visual_inv pow13 e s (proj1 (reachable_inv pow13 s Hr)))
    as (-> & _).
  rewrite total_bar_layout.
  pose proof (Z.div_mod (width - 4) 64 ltac:(lia)).
  pose proof (Z.div_le_lower_bound (width - 4) 64 1 ltac:(lia) ltac:(lia)).
  lia.
Qed.

End Claims.

(** ** Seeking forward under a monotone clock *)

Lemma clock_inv_later (t t' : Q) (s : MP3Player) :
  t <= t' -> clock_inv t s -> clock_inv t' s.
Proof.
  intros Ht (Ho & Hs & Hp). repeat split; try lra; apply Hp in H; lra.
Qed.

Lemma position_nonneg (t : Q) (o : PosEnv) (s : MP3Player) :
  clock_inv t s -> t <= now o -> 0 <= get_song_position o s.
Proof.
  intros (Ho & Hs & Hp) Ht. unfold get_song_position.
  destruct (busy o); simpl; [| lra].
  destruct (paused s); [destruct (Hp eq_refl) |]; lra.
Qed.

Lemma play_song_clock (t q : Q) (e : PlayEnv) (s s' : MP3Player) :
  clock_inv t s -> 0 <= q -> t <= play_now e ->
  play_song e q s = Some s' -> clock_inv (play_now e) s'.
Proof.
  intros Hinv Hq Ht. unfold play_song.
  destruct (no_songs s).
  { intros [= <-]. apply (clock_inv_later t); assumption. }
  destruct (py_index _ _); [| discriminate].
  destruct (play_ok e); intros [= <-].
  - repeat split; simpl; try lra; discriminate.
  - apply (clock_inv_later t); assumption.
Qed.

Section MonotoneClock.

Variable pow13 : Q -> Q.

Lemma reachable_at_clock (t : Q) (s : MP3Player) :
  reachable_at pow13 t s -> clock_inv t s.
Proof.
  induction 1 as [found | t s c s' _ IH Hc Hasc Hex].
  - repeat split; simpl; try lra; discriminate.
  - destruct c; simpl in Hex, Hasc |- *; try (injection Hex as <-).
    + destruct Hasc as [Ht _]. destruct IH as (Ho & Hs & Hp).
      unfold toggle_pause. destruct (paused s) eqn:Hpa.
      * destruct (Hp eq_refl). repeat split; simpl; try lra; discriminate.
      * repeat split; simpl; lra.
    + destruct Hasc as [Ht _]. unfold next_song in Hex.
      destruct (no_songs s).
      * injection Hex as <-. apply (clock_inv_later t); assumption.
      * refine (play_song_clock t 0 e _ s' _ _ Ht Hex); [exact IH | lra].
    + destruct Hasc as [Ht _]. unfold prev_song in Hex.
      destruct (no_songs s).
      * injection Hex as <-. apply (clock_inv_later t); assumption.
      * refine (play_song_clock t 0 e _ s' _ _ Ht Hex); [exact IH | lra].
    + destruct Hasc as (Ht & Ht' & _).
      pose proof (position_nonneg t o s IH Ht) as Hpos.
      unfold seek_forward.
      destruct (no_songs s || negb guard);
        [apply (clock_inv_later t); [lra | exact IH] |].
      cbv zeta. destruct (play_song _ _ _) eqn:Hplay.
      * apply (play_song_clock t _ e s _ IH) in Hplay; [exact Hplay | lra | lra].
      * apply (clock_inv_later t); [lra | exact IH].
    + destruct Hasc as (Ht & Ht' & _).
      unfold seek_backward.
      destruct (no_songs s || negb guard);
        [apply (clock_inv_later t); [lra | exact IH] |].
      cbv zeta. destruct (play_song _ _ _) eqn:Hplay.
      * apply (play_song_clock t _ e s _ IH) in Hplay;
          [exact Hplay | apply py_max_lower | lra].
      * apply (clock_inv_later t); [lra | exact IH].
    + exact IH.
    + exact IH.
    + exact IH.
    + destruct Hasc as [Ht _].
      apply (play_song_clock t 0 e s s'); [exact IH | lra | exact Ht | exact Hex].
    + destruct IH as (Ho & Hs & Hp). unfold clock_inv.
      rewrite tick_paused.
      unfold generate_visualizer_data.
      destruct (tick_busy e && negb (paused s)); simpl; auto.
Qed.

(** Neither direction of seeking stores a negative offset. *)
Lemma seek_offset_never_negative
    (t : Q) (g : bool) (o : PosEnv) (e : PlayEnv) (s : MP3Player) :
  reachable_at pow13 t s -> t <= now o -> now o <= play_now e ->
  0 <= seek_offset (seek_forward g o e s) /\
  0 <= seek_offset (seek_backward g o e s).
Proof.
  intros Hr Ht Ht'.
  pose proof (reachable_at_clock _ _
                (at_step pow13 t s (KeyRight g o e) _ Hr I
                   (conj Ht (conj Ht' I)) eq_refl)) as (Hf & _).
  pose proof (reachable_at_clock _ _
                (at_step pow13 t s (KeyLeft g o e) _ Hr I
                   (conj Ht (conj Ht' I)) eq_refl)) as (Hb & _).
  split; assumption.
Qed.

End MonotoneClock.

(** ** Concrete runs *)

Lemma frames_bounded_witness :
  reachable sample_pow after_one_tick /\ (0 < 64)%nat /\
  (exists a p, audio_data after_one_tick !! 0%nat = Some a /\
               peak_data after_one_tick !! 0%nat = Some p /\
               0 <= a <= 2.2 /\ 0 <= p <= 2.2) /\
  (exists a p,
      audio_data (generate_visualizer_data sample_pow silent_tick after_one_tick)
        !! 0%nat = Some a /\
      peak_data (generate_visualizer_data sample_pow silent_tick after_one_tick)
        !! 0%nat = Some p /\
      0 <= a <= 2.2 /\ 0 <= p <= 2.2).
Proof.
  split; [apply after_one_tick_reachable |]. split; [lia |].
  apply (frames_bounded sample_pow silent_tick after_one_tick 0);
    [apply after_one_tick_reachable | lia].
Defined.

Lemma peak_decay_law_witness :
  reachable sample_pow after_one_tick /\ (0 < 64)%nat /\
  exists a' p p',
    audio_data (generate_visualizer_data sample_pow sounding_tick after_one_tick)
      !! 0%nat = Some a' /\
    peak_data after_one_tick !! 0%nat = Some p /\
    peak_data (generate_visualizer_data sample_pow sounding_tick after_one_tick)
      !! 0%nat = Some p' /\
    (p < a' -> p' = a') /\ (a' <= p -> p' <= p).
Proof.
  split; [apply after_one_tick_reachable |]. split; [lia |].
  apply (peak_decay_law sample_pow sounding_tick after_one_tick 0);
    [apply after_one_tick_reachable | lia].
Defined.

Lemma beat_intensity_in_unit_interval_witness :
  reachable sample_pow after_one_tick /\
  -1 <= tick_sin sounding_tick <= 1 /\
  0 <= beat_intensity after_one_tick <= 1 /\
  0 <= beat_intensity
         (generate_visualizer_data sample_pow sounding_tick after_one_tick) <= 1.
Proof.
  split; [apply after_one_tick_reachable |].
  split; [simpl; lra |].
  apply (beat_intensity_in_unit_interval sample_pow sounding_tick after_one_tick);
    [apply after_one_tick_reachable | simpl; lra].
Defined.



(** C5 (as stated, refuted): on an 80-column terminal the visualizer is
    given width 52, hence 48 available columns; every bar still gets one
    column and the first 48 get a second one, 112 columns in all. *)
Lemma bar_fill_overflows_when_narrow :
  (80 - 28 = 52)%Z /\ (52 - 4 = 48)%Z /\
  total_width
    (draw_visualizer_layout sample_pow sounding_tick 52 (init three_tracks))
  = 112%Z /\
  total_width
    (draw_visualizer_layout sample_pow sounding_tick 52 (init three_tracks))
  <> (52 - 4)%Z.
Proof.
  split; [reflexivity |]. split; [reflexivity |].
  split; [vm_compute; reflexivity | vm_compute; discriminate].
Qed.

Lemma bar_fill_exact_witness :
  reachable sample_pow after_one_tick /\ (64 <= 100 - 4)%Z /\
  total_width (draw_visualizer_layout sample_pow sounding_tick 100 after_one_tick)
  = (100 - 4)%Z.
Proof.
  split; [apply after_one_tick_reachable |]. split; [lia |].
  apply (bar_fill_exact sample_pow sounding_tick 100 after_one_tick);
    [apply after_one_tick_reachable | lia].
Defined.

(** * Further properties *)

(** ** Playback clock *)

(** X1: once paused at time [t], the reported position is the one of
    time [t] at every later reading. *)
Theorem pause_freezes_position (b : bool) (t t' : Q) (s : MP3Player) :
  paused s = false ->
  get_song_position (mkPosEnv b t') (toggle_pause t s)
  = get_song_position (mkPosEnv b t) s.
Proof.
  intros H. unfold get_song_position, toggle_pause. rewrite H. reflexivity.
Qed.

Lemma pause_freezes_position_witness :
  paused ended_track = false /\
  get_song_position (mkPosEnv true 999) (toggle_pause 130 ended_track)
  = get_song_position (mkPosEnv true 130) ended_track.
Proof.
  split; [reflexivity |].
  apply (pause_freezes_position true 130 999 ended_track). reflexivity.
Defined.

(** X2: when a seek restarts the track, the position read at the
    instant of the restart is the old position plus 10 for a forward
    seek and [max(0, old - 10)] for a backward seek, and the player is no
    longer paused. *)
Theorem seek_moves_ten_seconds
    (g : bool) (o : PosEnv) (e : PlayEnv) (s : MP3Player) :
  no_songs s = false ->
  g = true ->
  is_Some (py_index (songs s) (current_song_index s)) ->
  play_ok e = true ->
  get_song_position (mkPosEnv true (play_now e)) (seek_forward g o e s)
    == get_song_position o s + 10 /\
  get_song_position (mkPosEnv true (play_now e)) (seek_backward g o e s)
    == py_max 0 (get_song_position o s - 10) /\
  paused (seek_forward g o e s) = false /\
  paused (seek_backward g o e s) = false.
Proof.
  intros Hs Hg Hidx Hok. unfold seek_forward, seek_backward.
  rewrite Hs, Hg. cbn [negb orb]. cbv zeta.
  rewrite !(play_song_starts e _ s Hs Hidx Hok).
  unfold get_song_position. simpl. repeat split; lra.
Qed.

Lemma seek_moves_ten_seconds_witness :
  get_song_position at_130 ended_track == 30 /\
  get_song_position (mkPosEnv true 131)
    (seek_forward true at_130 restart_at_131 ended_track) == 40 /\
  get_song_position (mkPosEnv true 131)
    (seek_backward true at_130 restart_at_131 ended_track) == 20.
Proof.
  destruct (seek_moves_ten_seconds true at_130 restart_at_131 ended_track
              eq_refl eq_refl (mk_is_Some _ _ eq_refl) eq_refl)
    as (Hf & Hb & _).
  split; [reflexivity |]. split.
  - rewrite Hf. reflexivity.
  - rewrite Hb. reflexivity.
Defined.

(** X3: a track that fails to load leaves the player exactly as it was
    after a seek, and after next/previous changes nothing but the track
    index, which still advances. *)
Theorem failed_load_changes_only_index
    (g : bool) (o : PosEnv) (e : PlayEnv) (s : MP3Player) :
  songs s <> [] ->
  play_ok e = false ->
  let n := Z.of_nat (length (songs s)) in
  seek_forward g o e s = s /\
  seek_backward g o e s = s /\
  next_song e s = Some (set_index ((current_song_index s + 1) mod n) s) /\
  prev_song e s = Some (set_index ((current_song_index s - 1) mod n) s).
Proof.
  intros Hne Hok n.
  assert (Hn : (0 < n)%Z).
  { subst n. destruct (songs s); [congruence | simpl; lia]. }
  assert (Hplay : forall q t, play_song e q t = Some t \/ play_song e q t = None).
  { intros q t. unfold play_song. destruct (no_songs t); [auto |].
    destruct (py_index _ _); [| auto]. rewrite Hok. auto. }
  assert (Hwrap : forall i,
            play_song e 0 (set_index (i mod n) s) = Some (set_index (i mod n) s)).
  { intros i. destruct (play_song_after_wrap e i s Hne) as (s' & Hs' & _).
    fold n in Hs'. destruct (Hplay 0 (set_index (i mod n) s)); congruence. }
  unfold seek_forward, seek_backward, next_song, prev_song.
  rewrite (no_songs_false s Hne). fold n.
  repeat split.
  - destruct (false || negb g); [reflexivity |]. cbv zeta.
    destruct (Hplay (get_song_position o s + 10) s) as [-> | ->]; reflexivity.
  - destruct (false || negb g); [reflexivity |]. cbv zeta.
    destruct (Hplay (py_max 0 (get_song_position o s - 10)) s) as [-> | ->];
      reflexivity.
  - apply Hwrap.
  - apply Hwrap.
Qed.

Lemma failed_load_changes_only_index_witness :
  seek_forward true at_130 failing_load ended_track = ended_track /\
  next_song failing_load (init three_tracks)
  = Some (set_index 1 (init three_tracks)).
Proof.
  destruct (failed_load_changes_only_index true at_130 failing_load
              ended_track ltac:(discriminate) eq_refl) as (Hf & _).
  destruct (failed_load_changes_only_index true at_130 failing_load
              (init three_tracks) ltac:(discriminate) eq_refl)
    as (_ & _ & Hn & _).
  split; [exact Hf | exact Hn].
Defined.

(** X4: no track change can raise: [next_song], [prev_song] and the
    automatic advance at the end of a loop pass return normally from
    every state, even one whose index is out of range. *)
Theorem track_changes_never_raise (b : bool) (e : PlayEnv) (s : MP3Player) :
  is_Some (next_song e s) /\ is_Some (prev_song e s) /\
  is_Some (auto_advance b e s).
Proof.
  assert (Hnext : is_Some (next_song e s)).
  { unfold next_song. destruct (no_songs s) eqn:Hs; [eauto |].
    assert (Hne : songs s <> []).
    { unfold no_songs in Hs. destruct (songs s); congruence. }
    destruct (play_song_after_wrap e (current_song_index s + 1) s Hne)
      as (s' & -> & _). eauto. }
  split; [exact Hnext |]. split.
  - unfold prev_song. destruct (no_songs s) eqn:Hs; [eauto |].
    assert (Hne : songs s <> []).
    { unfold no_songs in Hs. destruct (songs s); congruence. }
    destruct (play_song_after_wrap e (current_song_index s - 1) s Hne)
      as (s' & -> & _). eauto.
  - unfold auto_advance.
    destruct (negb b && negb (paused s) && negb (no_songs s)); eauto.
Qed.

Lemma play_song_songs (e : PlayEnv) (q : Q) (s s' : MP3Player) :
  play_song e q s = Some s' -> songs s' = songs s.
Proof.
  unfold play_song. intros H.
  destruct (no_songs s); [congruence |].
  destruct (py_index _ _); [| discriminate].
  destruct (play_ok e); inversion H; reflexivity.
Qed.

Lemma track_navigation_wraps_aux (e : PlayEnv) (s : MP3Player) :
  songs s <> [] ->
  exists s', next_song e s = Some s' /\
    current_song_index s'
    = ((current_song_index s + 1) mod Z.of_nat (length (songs s)))%Z /\
    songs s' = songs s.
Proof.
  intros Hne. unfold next_song. rewrite (no_songs_false s Hne).
  destruct (play_song_after_wrap e (current_song_index s + 1) s Hne)
    as (s' & Hs' & Hi).
  exists s'. split; [exact Hs' |]. split; [exact Hi |].
  apply play_song_songs in Hs'. exact Hs'.
Qed.

(** X5: when the directory is listed again and the list becomes no
    longer than the current index, the title lookup of [draw_ui] and
    [play_song] raise [IndexError], both seeks swallow it and change
    nothing, and the next track change brings the index back in range. *)
Theorem stale_index_after_reload
    (found : list string) (g : bool) (o : PosEnv) (e : PlayEnv) (q : Q)
    (s : MP3Player) :
  found <> [] ->
  (Z.of_nat (length found) <= current_song_index s)%Z ->
  let s1 := load_songs found s in
  song_name s1 = None /\
  play_song e q s1 = None /\
  seek_forward g o e s1 = s1 /\
  seek_backward g o e s1 = s1 /\
  exists s2, next_song e s1 = Some s2 /\
    (0 <= current_song_index s2 < Z.of_nat (length found))%Z /\
    is_Some (song_name s2).
Proof.
  intros Hne Hlen s1.
  assert (Hs1 : no_songs s1 = false).
  { apply no_songs_false. exact Hne. }
  assert (Hidx : py_index (songs s1) (current_song_index s1) = None).
  { unfold py_index. subst s1. cbn [songs current_song_index load_songs set_songs].
    destruct (Z.leb_spec 0 (current_song_index s)); [| lia].
    apply lookup_ge_None. lia. }
  assert (Hplay : forall q', play_song e q' s1 = None).
  { intros q'. unfold play_song. rewrite Hs1, Hidx. reflexivity. }
  split; [unfold song_name; rewrite Hs1, Hidx; reflexivity |].
  split; [apply Hplay |].
  split; [unfold seek_forward; destruct (no_songs s1 || negb g);
          [reflexivity | cbv zeta; rewrite Hplay; reflexivity] |].
  split; [unfold seek_backward; destruct (no_songs s1 || negb g);
          [reflexivity | cbv zeta; rewrite Hplay; reflexivity] |].
  destruct (track_navigation_wraps_aux e s1 Hne) as (s2 & Hs2 & Hi2 & Hsongs).
  change (songs s1) with found in Hsongs, Hi2.
  exists s2. split; [exact Hs2 |].
  assert (Hb : (0 <= current_song_index s2 < Z.of_nat (length found))%Z).
  { rewrite Hi2. apply Z.mod_pos_bound.
    destruct found; [congruence | simpl; lia]. }
  split; [exact Hb |].
  unfold song_name.
  replace (no_songs s2) with false
    by (symmetry; apply no_songs_false; rewrite Hsongs; exact Hne).
  rewrite Hsongs.
  destruct (py_index_in_range found (current_song_index s2) Hb) as [x ->].
  eauto.
Qed.

Lemma stale_index_after_reload_witness :
  song_name (set_index 2 (init three_tracks)) = Some (Some "c.mp3"%string) /\
  song_name stale_player = None /\
  seek_forward true at_130 restart_at_131 stale_player = stale_player /\
  exists s2, next_song restart_at_131 stale_player = Some s2 /\
    (0 <= current_song_index s2 < 1)%Z /\ is_Some (song_name s2).
Proof.
  destruct (stale_index_after_reload ["a.mp3"%string] true at_130
              restart_at_131 0 (set_index 2 (init three_tracks))
              ltac:(discriminate) ltac:(simpl; lia))
    as (Hname & _ & Hf & _ & Hnext).
  split; [reflexivity |]. split; [exact Hname |]. split; [exact Hf |].
  exact Hnext.
Defined.

Lemma index_ok_same (s s' : MP3Player) :
  songs s' = songs s -> current_song_index s' = current_song_index s ->
  index_ok s -> index_ok s'.
Proof.
  unfold index_ok, no_songs. intros -> ->. tauto.
Qed.

Lemma index_ok_song_name (s : MP3Player) :
  index_ok s -> is_Some (song_name s).
Proof.
  unfold song_name. intros [Hs | Hb]; [rewrite Hs; eauto |].
  destruct (no_songs s); [eauto |].
  destruct (py_index_in_range (songs s) (current_song_index s) Hb) as [x ->].
  eauto.
Qed.

Lemma play_song_index_ok (e : PlayEnv) (q : Q) (s s' : MP3Player) :
  play_song e q s = Some s' -> index_ok s -> index_ok s'.
Proof.
  intros H. apply index_ok_same;
    [apply (play_song_songs e q), H | apply (play_song_index e q), H].
Qed.

Lemma wrapped_index_ok (i : Z) (s : MP3Player) :
  no_songs s = false ->
  index_ok (set_index (i mod Z.of_nat (length (songs s))) s).
Proof.
  intros Hs. right. cbn [songs current_song_index set_index].
  apply Z.mod_pos_bound. unfold no_songs in Hs.
  destruct (songs s); [discriminate | simpl; lia].
Qed.

Lemma ended_track_reachable_at : reachable_at sample_pow 100 ended_track.
Proof.
  assert (Hclock : ascending 0
            (command_clock (AutoPlay (mkPlayEnv true 100 (Some 180))))).
  { simpl. split; [lra | exact I]. }
  exact (at_step sample_pow 0 (init ["a.mp3"%string])
           (AutoPlay (mkPlayEnv true 100 (Some 180))) ended_track
           (at_init sample_pow _) I Hclock eq_refl).
Qed.

Section FurtherPlayback.

Variable pow13 : Q -> Q.

(** X6: as long as the directory is not listed again, every command
    keeps the index on a song of the list (or the list empty), so the
    title lookup of [draw_ui] does not raise. *)
Theorem index_stays_on_a_song (c : Command) (s s' : MP3Player) :
  index_ok s ->
  (forall found, c <> KeyReload found) ->
  exec pow13 c s = Some s' ->
  index_ok s' /\ is_Some (song_name s').
Proof.
  intros Hok Hc Hex.
  cut (index_ok s'); [intros H; split; [exact H | apply index_ok_song_name, H] |].
  destruct c; simpl in Hex; try (injection Hex as <-).
  - unfold toggle_pause. destruct (paused s); exact Hok.
  - unfold next_song in Hex. destruct (no_songs s) eqn:Hs.
    + injection Hex as <-. exact Hok.
    + apply (play_song_index_ok e 0 _ s' Hex), wrapped_index_ok, Hs.
  - unfold prev_song in Hex. destruct (no_songs s) eqn:Hs.
    + injection Hex as <-. exact Hok.
    + apply (play_song_index_ok e 0 _ s' Hex), wrapped_index_ok, Hs.
  - unfold seek_forward. destruct (no_songs s || negb guard); [exact Hok |].
    cbv zeta. destruct (play_song _ _ _) eqn:Hp; [| exact Hok].
    apply (play_song_index_ok _ _ _ _ Hp), Hok.
  - unfold seek_backward. destruct (no_songs s || negb guard); [exact Hok |].
    cbv zeta. destruct (play_song _ _ _) eqn:Hp; [| exact Hok].
    apply (play_song_index_ok _ _ _ _ Hp), Hok.
  - exact Hok.
  - exact Hok.
  - exfalso. apply (Hc found). reflexivity.
  - apply (play_song_index_ok e 0 s s' Hex), Hok.
  - revert Hok. apply index_ok_same; unfold generate_visualizer_data;
      destruct (tick_busy e && negb (paused s)); reflexivity.
Qed.

(** X7: while the clock never runs backwards, the reported position and
    the stored seek offset are never negative. *)
Theorem position_never_negative (t : Q) (o : PosEnv) (s : MP3Player) :
  reachable_at pow13 t s ->
  t <= now o ->
  0 <= get_song_position o s /\ 0 <= seek_offset s.
Proof.
  intros Hr Ht. pose proof (reachable_at_clock pow13 t s Hr) as Hinv.
  split; [apply (position_nonneg t o s Hinv Ht) | apply Hinv].
Qed.

End FurtherPlayback.

Lemma index_stays_on_a_song_witness :
  index_ok (init three_tracks) /\
  exists s', exec sample_pow (KeyPrev restart_at_131) (init three_tracks)
             = Some s' /\
             index_ok s' /\ song_name s' = Some (Some "c.mp3"%string).
Proof.
  assert (Hok : index_ok (init three_tracks)) by (right; simpl; lia).
  split; [exact Hok |]. eexists. split; [reflexivity |].
  split; [| reflexivity].
  apply (index_stays_on_a_song sample_pow (KeyPrev restart_at_131)
           (init three_tracks) _ Hok); [discriminate | reflexivity].
Defined.

Lemma position_never_negative_witness :
  reachable_at sample_pow 100 ended_track /\ 100 <= now at_130 /\
  0 <= get_song_position at_130 ended_track /\ 0 <= seek_offset ended_track.
Proof.
  split; [apply ended_track_reachable_at |]. split; [simpl; lra |].
  apply (position_never_negative sample_pow 100 at_130 ended_track);
    [apply ended_track_reachable_at | simpl; lra].
Defined.

(** ** Progress bar, clock display and volume indicator *)

Lemma py_int_floor (x : Q) : 0 <= x -> py_int x = Qfloor x.
Proof.
  destruct x as [n d]. unfold Qle, py_int, Qfloor. simpl. intros H.
  apply Z.quot_div_nonneg; lia.
Qed.

Lemma py_int_range (x : Q) (n : Z) :
  0 <= x -> x <= inject_Z n -> (0 <= py_int x <= n)%Z.
Proof.
  intros H0 Hn. rewrite (py_int_floor x H0). split.
  - change 0%Z with (Qfloor 0). apply Qfloor_resp_le, H0.
  - rewrite <- (Qfloor_Z n). apply Qfloor_resp_le, Hn.
Qed.

Lemma Qfloor_unique (z : Z) (y : Q) :
  inject_Z z <= y -> y < inject_Z z + 1 -> Qfloor y = z.
Proof.
  intros Hlo Hhi.
  pose proof (Qfloor_le y) as Hf. pose proof (Qlt_floor y) as Hf'.
  rewrite inject_Z_plus in Hf'. change (inject_Z 1) with 1 in Hf'.
  assert (H1 : inject_Z (Qfloor y) < inject_Z (z + 1)).
  { rewrite inject_Z_plus. change (inject_Z 1) with 1. lra. }
  assert (H2 : inject_Z z < inject_Z (Qfloor y + 1)).
  { rewrite inject_Z_plus. change (inject_Z 1) with 1. lra. }
  rewrite <- Zlt_Qlt in H1, H2. lia.
Qed.

Lemma progress_unit (position len : Q) :
  0 <= position -> 0 <= progress position len <= 1.
Proof.
  intros Hp. unfold progress.
  destruct (Qlt_le_dec 0 len) as [Hlen |]; [| lra].
  assert (Hq : 0 <= position / len).
  { apply Qle_shift_div_l; [exact Hlen | lra]. }
  unfold py_min. destruct (Qlt_le_dec (position / len) 1.0); lra.
Qed.

Lemma play_song_volume (e : PlayEnv) (q : Q) (s s' : MP3Player) :
  play_song e q s = Some s' -> volume s' = volume s.
Proof.
  unfold play_song. intros H.
  destruct (no_songs s); [congruence |].
  destruct (py_index _ _); [| discriminate].
  destruct (play_ok e); inversion H; reflexivity.
Qed.

(** X8: the minutes and seconds shown for a non-negative time [x] are
    non-negative, the seconds stay below 60, and together they give
    back the whole seconds of [x]. *)
Theorem clock_fields_decompose (x : Q) :
  0 <= x ->
  (0 <= clock_minutes x)%Z /\ (0 <= clock_seconds x < 60)%Z /\
  (60 * clock_minutes x + clock_seconds x = Qfloor x)%Z.
Proof.
  intros Hx. unfold clock_minutes, clock_seconds, py_mod, py_floordiv.
  set (m := Qfloor (x / 60)).
  assert (Hdiv : x == 60 * (x / 60)) by (field; discriminate).
  pose proof (Qfloor_le (x / 60)) as Hlo.
  pose proof (Qlt_floor (x / 60)) as Hhi.
  fold m in Hlo, Hhi. rewrite inject_Z_plus in Hhi.
  change (inject_Z 1) with 1 in Hhi.
  assert (Hm : (0 <= m)%Z).
  { change 0%Z with (Qfloor 0). apply Qfloor_resp_le.
    apply Qle_shift_div_l; lra. }
  assert (Hmin : py_int (inject_Z m) = m).
  { unfold py_int. simpl. apply Z.quot_1_r. }
  assert (Hr : 0 <= x - 60 * inject_Z m) by lra.
  rewrite Hmin, (py_int_floor _ Hr).
  assert (Hsec : Qfloor (x - 60 * inject_Z m) = (Qfloor x - 60 * m)%Z).
  { apply Qfloor_unique.
    - unfold Z.sub. rewrite inject_Z_plus, inject_Z_opp, inject_Z_mult.
      change (inject_Z 60) with 60. pose proof (Qfloor_le x). lra.
    - unfold Z.sub. rewrite inject_Z_plus, inject_Z_opp, inject_Z_mult.
      change (inject_Z 60) with 60. pose proof (Qlt_floor x) as Hx'.
      rewrite inject_Z_plus in Hx'. change (inject_Z 1) with 1 in Hx'. lra. }
  rewrite Hsec.
  assert (Hfx : (60 * m <= Qfloor x < 60 * m + 60)%Z).
  { split.
    - rewrite <- (Qfloor_Z (60 * m)). apply Qfloor_resp_le.
      rewrite inject_Z_mult. change (inject_Z 60) with 60. lra.
    - assert (H : inject_Z (Qfloor x) < inject_Z (60 * m + 60)).
      { rewrite inject_Z_plus, inject_Z_mult. change (inject_Z 60) with 60.
        pose proof (Qfloor_le x). lra. }
      rewrite <- Zlt_Qlt in H. exact H. }
  lia.
Qed.

Lemma clock_fields_decompose_witness :
  0 <= 125.5 /\
  clock_minutes 125.5 = 2%Z /\ clock_seconds 125.5 = 5%Z /\
  (60 * clock_minutes 125.5 + clock_seconds 125.5 = Qfloor 125.5)%Z.
Proof.
  split; [lra |]. split; [reflexivity |]. split; [reflexivity |].
  apply (clock_fields_decompose 125.5). lra.
Defined.

(** X9: once the position has reached a positive track length, the
    progress is 1 and the filled run takes the whole bar. *)
Theorem progress_bar_full (o : PosEnv) (width : Z) (s : MP3Player) :
  0 < get_song_length s ->
  get_song_length s <= get_song_position o s ->
  progress (get_song_position o s) (get_song_length s) = 1.0 /\
  progress_filled o width s = (width - 24)%Z.
Proof.
  intros Hlen Hpos.
  assert (Hp : progress (get_song_position o s) (get_song_length s) = 1.0).
  { unfold progress. destruct (Qlt_le_dec 0 (get_song_length s)); [| lra].
    unfold py_min.
    destruct (Qlt_le_dec (get_song_position o s / get_song_length s) 1.0)
      as [Hlt |]; [| reflexivity].
    exfalso.
    assert (Hge : 1.0 <= get_song_position o s / get_song_length s).
    { apply Qle_shift_div_l; lra. }
    lra. }
  split; [exact Hp |]. unfold progress_filled. cbv zeta. rewrite Hp.
  unfold py_int. simpl. change (Z.pos (10 * 1)) with 10%Z.
  rewrite Z.mul_comm. apply Z.quot_mul. discriminate.
Qed.

Lemma progress_bar_full_witness :
  0 < get_song_length ended_track /\
  get_song_length ended_track
    <= get_song_position (mkPosEnv true 300) ended_track /\
  progress_filled (mkPosEnv true 300) 80 ended_track = 56%Z.
Proof.
  split; [reflexivity |]. split; [vm_compute; discriminate |].
  apply (progress_bar_full (mkPosEnv true 300) 80 ended_track);
    [reflexivity | vm_compute; discriminate].
Defined.

Lemma volume_cells_range (v : Q) :
  0 <= v <= 1 ->
  (0 <= py_int (v * 10) <= 10)%Z /\ (0 <= py_int (v * 100) <= 100)%Z.
Proof.
  intros Hv. split; apply py_int_range; try lra.
  - change (inject_Z 10) with 10. lra.
  - change (inject_Z 100) with 100. lra.
Qed.

Section FurtherDisplay.

Variable pow13 : Q -> Q.

Lemma exec_volume (c : Command) (s s' : MP3Player) :
  exec pow13 c s = Some s' -> 0 <= volume s <= 1 -> 0 <= volume s' <= 1.
Proof.
  intros Hex Hv.
  destruct c; simpl in Hex; try (injection Hex as <-).
  - unfold toggle_pause. destruct (paused s); exact Hv.
  - unfold next_song in Hex. destruct (no_songs s).
    + injection Hex as <-. exact Hv.
    + apply play_song_volume in Hex. rewrite Hex. exact Hv.
  - unfold prev_song in Hex. destruct (no_songs s).
    + injection Hex as <-. exact Hv.
    + apply play_song_volume in Hex. rewrite Hex. exact Hv.
  - unfold seek_forward. destruct (no_songs s || negb guard); [exact Hv |].
    cbv zeta. destruct (play_song _ _ _) eqn:Hp; [| exact Hv].
    apply play_song_volume in Hp. rewrite Hp. exact Hv.
  - unfold seek_backward. destruct (no_songs s || negb guard); [exact Hv |].
    cbv zeta. destruct (play_song _ _ _) eqn:Hp; [| exact Hv].
    apply play_song_volume in Hp. rewrite Hp. exact Hv.
  - unfold volume_up, py_min. cbn [volume set_volume].
    destruct (Qlt_le_dec _ _); lra.
  - unfold volume_down, py_max. cbn [volume set_volume].
    destruct (Qlt_le_dec _ _); lra.
  - exact Hv.
  - apply play_song_volume in Hex. rewrite Hex. exact Hv.
  - unfold generate_visualizer_data.
    destruct (tick_busy e && negb (paused s)); exact Hv.
Qed.

Lemma reachable_volume (s : MP3Player) :
  reachable pow13 s -> 0 <= volume s <= 1.
Proof.
  induction 1 as [found | s c s' _ IH _ Hex].
  - simpl. lra.
  - apply (exec_volume c s s' Hex IH).
Qed.

(** X10: in every reachable state the volume lies in [0, 1]; the
    indicator therefore shows between 0 and 10 filled cells, always 10
    cells in all, and a percentage between 0 and 100. *)
Theorem volume_indicator_ten_cells (s : MP3Player) :
  reachable pow13 s ->
  0 <= volume s <= 1 /\
  (0 <= volume_filled s <= 10)%Z /\
  volume_bar_len s = 10%nat /\
  (0 <= py_int (volume s * 100) <= 100)%Z.
Proof.
  intros Hr. pose proof (reachable_volume s Hr) as Hv.
  destruct (volume_cells_range (volume s) Hv) as [H10 H100].
  split; [exact Hv |]. split; [exact H10 |]. split; [| exact H100].
  unfold volume_bar_len, volume_empty, volume_filled, py_repeat_len. lia.
Qed.

(** X11: while the clock never runs backwards and the window is at
    least 24 columns wide, the filled run of the progress bar is neither
    negative nor longer than the bar. *)
Theorem progress_bar_fits (t : Q) (o : PosEnv) (width : Z) (s : MP3Player) :
  reachable_at pow13 t s ->
  t <= now o ->
  (24 <= width)%Z ->
  (0 <= progress_filled o width s <= width - 24)%Z.
Proof.
  intros Hr Ht Hw.
  pose proof (position_nonneg t o s (reachable_at_clock pow13 t s Hr) Ht) as Hp.
  pose proof (progress_unit (get_song_position o s) (get_song_length s) Hp) as Hu.
  unfold progress_filled. cbv zeta.
  assert (Hbw : 0 <= inject_Z (width - 24)).
  { change 0 with (inject_Z 0). rewrite <- Zle_Qle. lia. }
  apply py_int_range; nra.
Qed.

End FurtherDisplay.

Lemma after_volume_keys_reachable :
  reachable sample_pow (volume_up (volume_up (volume_up (volume_up
                          (init three_tracks))))).
Proof.
  repeat (eapply (reach_step sample_pow _ KeyPlus); [| exact I | reflexivity]).
  apply reach_init.
Qed.

Lemma volume_indicator_ten_cells_witness :
  volume (volume_up (volume_up (volume_up (volume_up (init three_tracks)))))
    == 1 /\
  volume_bar_len
    (volume_up (volume_up (volume_up (volume_up (init three_tracks)))))
  = 10%nat.
Proof.
  split; [reflexivity |].
  apply (volume_indicator_ten_cells sample_pow _ after_volume_keys_reachable).
Defined.

Lemma progress_bar_fits_witness :
  reachable_at sample_pow 100 ended_track /\ 100 <= now at_130 /\
  (24 <= 80)%Z /\
  (0 <= progress_filled at_130 80 ended_track <= 80 - 24)%Z.
Proof.
  split; [apply ended_track_reachable_at |]. split; [simpl; lra |].
  split; [lia |].
  apply (progress_bar_fits sample_pow 100 at_130 80 ended_track);
    [apply ended_track_reachable_at | simpl; lra | lia].
Defined.

(** ** Visualizer *)

Section FurtherVisualizer.

Variable pow13 : Q -> Q.

Lemma raw_frame_lookup (rnd : nat -> Q) (b : Q) (i : nat) :
  (i < 64)%nat ->
  raw_frame pow13 rnd b !! i = Some (band_strength pow13 rnd b i).
Proof.
  intros Hi.
  do 64 (destruct i as [| i]; [reflexivity |]).
  lia.
Qed.

(** X12: the five band loops together write every one of the 64 bands
    exactly with the expression of its group: bands 0-15 from
    [pow13 b * 1.6], 16-27 from [b * 1.35], 28-40 from [b * 1.2], 41-52
    from [b * 1.0] and 53-63 from [b * 0.85], band [i] using draw
    [i + 1]; no band keeps its initial 0 by omission and none is written
    by two groups. *)
Theorem raw_frame_bands (rnd : nat -> Q) (b : Q) (i : nat) :
  (i < 64)%nat ->
  length (raw_frame pow13 rnd b) = 64%nat /\
  raw_frame pow13 rnd b !! i = Some (band_strength pow13 rnd b i).
Proof.
  intros Hi. split; [apply raw_frame_length | apply raw_frame_lookup, Hi].
Qed.

Lemma product_bound (u v w U V : Q) :
  0 <= u <= U -> 0 <= v <= V -> 0 <= w <= 1 -> 0 <= u * v * w <= U * V.
Proof.
  intros Hu Hv Hw.
  assert (Huv : 0 <= u * v <= U * V) by nra.
  set (p := u * v) in *. nra.
Qed.

Lemma of_nat_range (i lo hi : nat) :
  (lo <= i <= hi)%nat -> of_nat lo <= of_nat i <= of_nat hi.
Proof.
  intros H. unfold of_nat. rewrite <- !Zle_Qle. lia.
Qed.

Lemma band_strength_bounds (rnd : nat -> Q) (b : Q) (i : nat) :
  0 <= b <= 1 -> 0 <= pow13 b <= 1 -> (forall k, 0 <= rnd k < 1) ->
  (i < 64)%nat ->
  0 <= band_strength pow13 rnd b i <= 2.08.
Proof.
  intros Hb Hp Hrnd H64. pose proof (Hrnd (S i)) as Hr. unfold band_strength.
  destruct (Nat.ltb_spec i 16) as [H16 | H16].
  { pose proof (of_nat_range i 0 15 ltac:(lia)) as Hi.
    change (of_nat 0) with 0 in Hi. change (of_nat 15) with 15 in Hi.
    assert (Hd : of_nat i == 25 * (of_nat i / 25)) by (field; discriminate).
    pose proof (product_bound (pow13 b * 1.6) (rnd (S i) * 0.6 + 0.7)
                  (1.0 - of_nat i / 25) 1.6 1.3) as Hprod.
    lra. }
  destruct (Nat.ltb_spec i 28) as [H28 | H28].
  { pose proof (of_nat_range i 16 27 ltac:(lia)) as Hi.
    change (of_nat 16) with 16 in Hi. change (of_nat 27) with 27 in Hi.
    assert (Hd : of_nat i - 16 == 20 * ((of_nat i - 16) / 20))
      by (field; discriminate).
    pose proof (product_bound (b * 1.35) (rnd (S i) * 0.7 + 0.6)
                  (1.0 - (of_nat i - 16) / 20) 1.35 1.3) as Hprod.
    lra. }
  destruct (Nat.ltb_spec i 41) as [H41 | H41].
  { pose proof (product_bound (b * 1.2) (rnd (S i) * 0.8 + 0.5) 1 1.2 1.3)
      as Hprod. lra. }
  destruct (Nat.ltb_spec i 53) as [H53 | H53].
  { pose proof (product_bound (b * 1.0) (rnd (S i) * 0.9 + 0.4) 1 1 1.3)
      as Hprod. lra. }
  assert (Hd : of_nat i - 53 == 18 * ((of_nat i - 53) / 18))
    by (field; discriminate).
  pose proof (of_nat_range i 53 63 ltac:(lia)) as Hi.
  change (of_nat 53) with 53 in Hi. change (of_nat 63) with 63 in Hi.
  pose proof (product_bound (b * 0.85) (rnd (S i) * 1.0 + 0.3)
                (0.9 - (of_nat i - 53) / 18) 0.85 1.3) as Hprod.
  lra.
Qed.

Lemma np_clip_inside (x : Q) : 0 <= x <= 2.2 -> np_clip 0 2.2 x = x.
Proof.
  intros Hx. unfold np_clip.
  destruct (Qlt_le_dec x 0); [lra |].
  destruct (Qlt_le_dec 2.2 x); [lra | reflexivity].
Qed.

Lemma map_clip_inside (l : list Q) :
  Forall (fun x => 0 <= x <= 2.2) l -> map (np_clip 0 2.2) l = l.
Proof.
  induction 1 as [| x l Hx _ IH]; [reflexivity |].
  simpl. rewrite IH, (np_clip_inside x Hx). reflexivity.
Qed.

Lemma add_spike_inside (rnd : nat -> Q) (l : list Q) :
  Forall (fun x => 0 <= x <= 2.08) l ->
  Forall (fun x => 0 <= x <= 2.2) (add_spike rnd l).
Proof.
  intros Hl.
  assert (Hl' : Forall (fun x => 0 <= x <= 2.2) l).
  { eapply Forall_impl; [exact Hl |]. simpl. intros x Hx. lra. }
  unfold add_spike. destruct (Qlt_le_dec _ _); [| exact Hl'].
  destruct (np_slot _ _) as [k |]; [| exact Hl'].
  destruct (l !! k) as [x |] eqn:Hk; [| exact Hl'].
  apply Forall_insert; [exact Hl' |].
  pose proof (proj1 (Forall_lookup _ l) Hl k x Hk) as Hx. simpl in Hx.
  unfold py_min. destruct (Qlt_le_dec (x + 0.7) 2.2); lra.
Qed.

(** X13: when [x ** 1.3] maps [0, 1] into itself, a playing tick from a
    reachable state builds raw bands within [0, 2.08], so [np.clip]
    changes nothing: the new spectrum is the blend of the old one with
    the raw frame after the spike. *)
Theorem clip_never_cuts (e : TickEnv) (s : MP3Player) :
  (forall x, 0 <= x <= 1 -> 0 <= pow13 x <= 1) ->
  reachable pow13 s ->
  valid_tick e ->
  is_playing e s = true ->
  Forall (fun x => 0 <= x <= 2.08)
    (raw_frame pow13 (tick_rnd e) (smoothed_beat e s)) /\
  audio_data (generate_visualizer_data pow13 e s)
  = zip_with (fun a n => a * 0.35 + n * 0.65) (audio_data s)
      (add_spike (tick_rnd e)
         (raw_frame pow13 (tick_rnd e) (smoothed_beat e s))).
Proof.
  intros Hpow Hr [Hsin Hrnd] Hplay.
  destruct (reachable_inv pow13 s Hr) as [_ Hbeat].
  pose proof (smoothed_beat_bounds e s Hsin Hbeat) as Hb.
  assert (Hraw : Forall (fun x => 0 <= x <= 2.08)
                   (raw_frame pow13 (tick_rnd e) (smoothed_beat e s))).
  { apply Forall_lookup. intros i x Hi.
    assert (Hlt : (i < 64)%nat).
    { rewrite <- (raw_frame_length pow13 (tick_rnd e) (smoothed_beat e s)).
      apply lookup_lt_is_Some. eauto. }
    rewrite (raw_frame_lookup _ _ i Hlt) in Hi. injection Hi as <-.
    apply band_strength_bounds; [exact Hb | apply Hpow, Hb | exact Hrnd | exact Hlt]. }
  split; [exact Hraw |].
  rewrite (tick_playing pow13 e s Hplay). cbv zeta. cbn [audio_data set_visual].
  rewrite (map_clip_inside _ (add_spike_inside _ _ Hraw)). reflexivity.
Qed.

(** X14: in every reachable state each peak is at least 0.94 of the
    spectrum value of its band. *)
Theorem peak_tracks_spectrum (s : MP3Player) (i : nat) (a p : Q) :
  reachable pow13 s ->
  audio_data s !! i = Some a ->
  peak_data s !! i = Some p ->
  0.94 * a <= p.
Proof.
  intros Hr Ha Hp.
  destruct (reachable_inv pow13 s Hr) as [(_ & _ & _ & _ & Hap) _].
  apply (Hap i a p Ha Hp).
Qed.

(** X15: a tick changes nothing but the two frames and the beat
    intensity, and every other command leaves those three alone. *)
Theorem display_and_control_independent (c : Command) (s s' : MP3Player) :
  exec pow13 c s = Some s' ->
  match c with
  | Tick _ => same_playback s s'
  | _ => same_visual s s'
  end.
Proof.
  intros Hex. destruct c; simpl in Hex; try (injection Hex as <-).
  - apply toggle_pause_visual.
  - apply (next_song_visual e), Hex.
  - apply (prev_song_visual e), Hex.
  - apply seek_forward_visual.
  - apply seek_backward_visual.
  - done.
  - done.
  - done.
  - apply (play_song_visual e 0), Hex.
  - unfold generate_visualizer_data, same_playback.
    destruct (tick_busy e && negb (paused s)); done.
Qed.

End FurtherVisualizer.

Lemma spike_slot (r : Q) :
  0 <= r < 1 ->
  exists k, np_slot 64 (py_int (r * 64)) = Some k /\ (k < 64)%nat /\
            Z.of_nat k = Qfloor (r * 64).
Proof.
  intros Hr.
  assert (H0 : 0 <= r * 64) by lra.
  rewrite (py_int_floor _ H0).
  assert (Hlo : (0 <= Qfloor (r * 64))%Z).
  { change 0%Z with (Qfloor 0). apply Qfloor_resp_le, H0. }
  assert (Hhi : (Qfloor (r * 64) < 64)%Z).
  { rewrite Zlt_Qlt. pose proof (Qfloor_le (r * 64)).
    change (inject_Z 64) with 64. lra. }
  exists (Z.to_nat (Qfloor (r * 64))). unfold np_slot.
  destruct (Z.leb_spec 0 (Qfloor (r * 64))); [| lia].
  destruct (Z.ltb_spec (Qfloor (r * 64)) (Z.of_nat 64)); [| lia].
  split; [reflexivity |]. split; lia.
Qed.

(** X16: with draws in [0, 1) the spike never misses the array: when
    draw 65 is below 0.12 exactly one band, the one numbered by the whole
    part of 64 times draw 66, is raised by 0.7 and capped at 2.2;
    otherwise the frame is left as it is. *)
Theorem spike_lands_on_one_band (rnd : nat -> Q) (nd : list Q) :
  (forall k, 0 <= rnd k < 1) ->
  length nd = 64%nat ->
  (0.12 <= rnd 65%nat -> add_spike rnd nd = nd) /\
  (rnd 65%nat < 0.12 ->
   exists k x, (k < 64)%nat /\ Z.of_nat k = Qfloor (rnd 66%nat * 64) /\
               nd !! k = Some x /\
               add_spike rnd nd = <[k := py_min 2.2 (x + 0.7)]> nd).
Proof.
  intros Hrnd Hlen. unfold add_spike. rewrite Hlen.
  destruct (Qlt_le_dec (rnd 65%nat) 0.12) as [Hlt | Hge].
  - split; [intros; lra |]. intros _.
    destruct (spike_slot (rnd 66%nat) (Hrnd 66%nat)) as (k & -> & Hk & Hfloor).
    destruct (lookup_lt_is_Some_2 nd k) as [x Hx]; [lia |].
    exists k, x. rewrite Hx. done.
  - split; [reflexivity | intros; lra].
Qed.

Lemma raw_frame_bands_witness :
  (20 < 64)%nat /\
  raw_frame sample_pow (tick_rnd sounding_tick) (1 # 8) !! 20%nat
  = Some (band_strength sample_pow (tick_rnd sounding_tick) (1 # 8) 20) /\
  band_strength sample_pow (tick_rnd sounding_tick) (1 # 8) 20 == 0.12825.
Proof.
  split; [lia |]. split; [| reflexivity].
  apply (raw_frame_bands sample_pow (tick_rnd sounding_tick) (1 # 8) 20). lia.
Defined.

Lemma sample_pow_unit (x : Q) : 0 <= x <= 1 -> 0 <= sample_pow x <= 1.
Proof. unfold sample_pow. tauto. Qed.

Lemma clip_never_cuts_witness :
  reachable sample_pow after_one_tick /\
  valid_tick sounding_tick /\
  is_playing sounding_tick after_one_tick = true /\
  audio_data (generate_visualizer_data sample_pow sounding_tick after_one_tick)
  = zip_with (fun a n => a * 0.35 + n * 0.65) (audio_data after_one_tick)
      (add_spike (tick_rnd sounding_tick)
         (raw_frame sample_pow (tick_rnd sounding_tick)
            (smoothed_beat sounding_tick after_one_tick))).
Proof.
  split; [apply after_one_tick_reachable |].
  split; [apply sounding_tick_valid |]. split; [reflexivity |].
  apply (clip_never_cuts sample_pow sounding_tick after_one_tick
           sample_pow_unit after_one_tick_reachable sounding_tick_valid
           eq_refl).
Defined.

Lemma peak_tracks_spectrum_witness :
  reachable sample_pow after_one_tick /\
  exists a p, audio_data after_one_tick !! 5%nat = Some a /\
              peak_data after_one_tick !! 5%nat = Some p /\
              0.94 * a <= p.
Proof.
  split; [apply after_one_tick_reachable |].
  assert (Ha : exists a, audio_data after_one_tick !! 5%nat = Some a)
    by (vm_compute; eexists; reflexivity).
  assert (Hp : exists p, peak_data after_one_tick !! 5%nat = Some p)
    by (vm_compute; eexists; reflexivity).
  destruct Ha as [a Ha]. destruct Hp as [p Hp].
  exists a, p. split; [exact Ha |]. split; [exact Hp |].
  apply (peak_tracks_spectrum sample_pow after_one_tick 5 a p
           after_one_tick_reachable Ha Hp).
Defined.

Lemma display_and_control_independent_witness :
  same_playback (init three_tracks) after_one_tick /\
  same_visual after_one_tick (toggle_pause 130 after_one_tick).
Proof.
  split.
  - apply (display_and_control_independent sample_pow (Tick sounding_tick)
             (init three_tracks) after_one_tick eq_refl).
  - apply (display_and_control_independent sample_pow (KeySpace 130)
             after_one_tick (toggle_pause 130 after_one_tick) eq_refl).
Defined.

Lemma spiking_tick_draws (k : nat) : 0 <= tick_rnd spiking_tick k < 1.
Proof. simpl. destruct (k =? 65)%nat; lra. Qed.

Lemma spike_lands_on_one_band_witness :
  tick_rnd spiking_tick 65%nat < 0.12 /\
  exists k x, (k < 64)%nat /\ Z.of_nat k = 32%Z /\
    replicate 64 (0 : Q) !! k = Some x /\
    add_spike (tick_rnd spiking_tick) (replicate 64 0)
    = <[k := py_min 2.2 (x + 0.7)]> (replicate 64 0).
Proof.
  split; [reflexivity |].
  apply (spike_lands_on_one_band (tick_rnd spiking_tick) (replicate 64 0)
           spiking_tick_draws eq_refl).
  reflexivity.
Defined.

(** ** Bar layout and cells *)

Lemma bar_columns_length (bw r : Z) (bars : list nat) (c : Z) :
  length (bar_columns bw r bars c) = length bars.
Proof.
  revert c. induction bars as [| i bars IH]; intros c; [reflexivity |].
  simpl. rewrite IH. reflexivity.
Qed.

Lemma bar_columns_take (bw r : Z) (n a k : nat) (c : Z) :
  (k <= n)%nat ->
  take k (bar_columns bw r (seq a n) c) = bar_columns bw r (seq a k) c.
Proof.
  revert a k c. induction n as [| n IH]; intros a k c Hk.
  - replace k with 0%nat by lia. reflexivity.
  - destruct k as [| k]; [reflexivity |].
    cbn [seq bar_columns take]. rewrite IH by lia. reflexivity.
Qed.

Lemma bar_columns_lookup (bw r : Z) (n a k : nat) (c : Z) (x : Z * Z) :
  bar_columns bw r (seq a n) c !! k = Some x ->
  snd x = (bw + (if Z.of_nat (a + k) <? r then 1 else 0))%Z /\
  fst x = (c + total_width (bar_columns bw r (seq a k) c))%Z.
Proof.
  revert a k c. induction n as [| n IH]; intros a k c H; [discriminate |].
  destruct k as [| k].
  - cbn [seq bar_columns] in H. injection H as <-.
    rewrite Nat.add_0_r. simpl. split; [reflexivity | lia].
  - cbn [seq bar_columns] in H. apply IH in H as [Hw Hs].
    replace (a + S k)%nat with (S a + k)%nat by lia.
    split; [exact Hw |]. rewrite Hs. cbn [seq bar_columns total_width fold_right snd].
    fold (total_width
            (bar_columns bw r (seq (S a) k)
               (c + (bw + (if (Z.of_nat a <? r)%Z then 1 else 0)))%Z)).
    lia.
Qed.

(** X17: the 64 bars are laid out without gap or overlap: the first one
    starts at column 2 and every bar starts right after the columns of
    the bars before it. *)
Theorem bars_are_contiguous (width : Z) (k : nat) (c : Z * Z) :
  bar_layout 64 width !! k = Some c ->
  fst c = (2 + total_width (take k (bar_layout 64 width)))%Z.
Proof.
  intros H. unfold bar_layout, range in *. cbv zeta in *.
  assert (Hk : (k < 64)%nat).
  { apply lookup_lt_Some in H. rewrite bar_columns_length, length_seq in H.
    exact H. }
  rewrite bar_columns_take by (simpl; lia).
  apply bar_columns_lookup in H as [_ Hs]. exact Hs.
Qed.

Lemma bars_are_contiguous_witness :
  bar_layout 64 100 !! 33%nat = Some (67, 1)%Z /\
  (67 = 2 + total_width (take 33 (bar_layout 64 100)))%Z.
Proof.
  split; [reflexivity |].
  apply (bars_are_contiguous 100 33 (67, 1)%Z). reflexivity.
Defined.

(** X18: there are 64 bars, each at least one column wide; two bars
    differ by at most one column and a wider bar never comes after a
    narrower one. *)
Theorem bar_widths_even (width : Z) (k k' : nat) (c c' : Z * Z) :
  bar_layout 64 width !! k = Some c ->
  bar_layout 64 width !! k' = Some c' ->
  length (bar_layout 64 width) = 64%nat /\
  (1 <= snd c)%Z /\
  (Z.abs (snd c - snd c') <= 1)%Z /\
  ((k <= k')%nat -> (snd c' <= snd c)%Z).
Proof.
  intros H H'. unfold bar_layout, range in *. cbv zeta in *.
  apply bar_columns_lookup in H as [Hw _].
  apply bar_columns_lookup in H' as [Hw' _].
  rewrite bar_columns_length, length_seq. rewrite Hw, Hw'.
  split; [reflexivity |].
  destruct (Z.ltb_spec (Z.of_nat (0 + k)) ((width - 4) mod Z.of_nat 64));
    destruct (Z.ltb_spec (Z.of_nat (0 + k')) ((width - 4) mod Z.of_nat 64));
    lia.
Qed.

Lemma bar_widths_even_witness :
  bar_layout 64 100 !! 31%nat = Some (64, 2)%Z /\
  bar_layout 64 100 !! 32%nat = Some (66, 1)%Z /\
  length (bar_layout 64 100) = 64%nat.
Proof.
  split; [reflexivity |]. split; [reflexivity |].
  apply (bar_widths_even 100 31 32 (64, 2)%Z (66, 1)%Z); reflexivity.
Defined.

Lemma bar_layout_inside (width : Z) (k : nat) (c : Z * Z) :
  (64 <= width - 4)%Z ->
  bar_layout 64 width !! k = Some c ->
  (2 <= fst c)%Z /\ (1 <= snd c)%Z /\ (fst c + snd c <= width - 2)%Z.
Proof.
  intros Hw H. unfold bar_layout, range in H. cbv zeta in H.
  assert (Hk : (k < 64)%nat).
  { apply lookup_lt_Some in H. rewrite bar_columns_length, length_seq in H.
    exact H. }
  apply bar_columns_lookup in H as [Hwd Hs].
  rewrite total_bar_columns in Hs. rewrite Hs, Hwd.
  pose proof (Z.mod_pos_bound (width - 4) 64 eq_refl) as Hr.
  pose proof (Z.div_mod (width - 4) 64 ltac:(lia)) as Hdm.
  pose proof (Z.div_le_lower_bound (width - 4) 64 1 ltac:(lia) ltac:(lia)).
  change (Z.of_nat 64) with 64%Z. change (Z.of_nat 0) with 0%Z.
  destruct (Z.ltb_spec (Z.of_nat (0 + k)) ((width - 4) mod 64)); nia.
Qed.

(** X19: when at least 64 columns are available every bar lies between
    the two margins: from column 2 on and before column [width - 2]. *)
Theorem bars_stay_inside (width : Z) (k : nat) (c : Z * Z) :
  (64 <= width - 4)%Z ->
  bar_layout 64 width !! k = Some c ->
  (2 <= fst c)%Z /\ (fst c + snd c <= width - 2)%Z.
Proof.
  intros Hw H. destruct (bar_layout_inside width k c Hw H) as (H1 & _ & H2).
  split; assumption.
Qed.

Lemma bars_stay_inside_witness :
  (64 <= 100 - 4)%Z /\
  bar_layout 64 100 !! 63%nat = Some (97, 1)%Z /\
  (2 <= 97)%Z /\ (97 + 1 <= 100 - 2)%Z.
Proof.
  split; [lia |]. split; [reflexivity |].
  apply (bars_stay_inside 100 63 (97, 1)%Z); [lia | reflexivity].
Defined.

Lemma py_int_nonneg (x : Q) : 0 <= x -> (0 <= py_int x)%Z.
Proof.
  intros H. rewrite (py_int_floor x H).
  change 0%Z with (Qfloor 0). apply Qfloor_resp_le, H.
Qed.

Lemma inject_Z_nonneg (z : Z) : (0 <= z)%Z -> 0 <= inject_Z z.
Proof. intros H. change 0 with (inject_Z 0). rewrite <- Zle_Qle. exact H. Qed.

Lemma bar_height_range (value : Q) (height : Z) :
  0 <= value ->
  (2 <= height)%Z ->
  (0 <= bar_height value height <= height - 2)%Z.
Proof.
  intros Hv Hh. unfold bar_height.
  pose proof (inject_Z_nonneg (height - 2) ltac:(lia)) as Hm.
  assert (Hprod : 0 <= value * inject_Z (height - 2)) by nra.
  pose proof (py_int_nonneg _ Hprod) as Hp. lia.
Qed.

(** X20: for a band value that is not negative and a region at least
    two rows high, the bar is between 0 and [height - 2] cells high, and
    every value from 1 upwards fills all [height - 2] cells. *)
Theorem bar_height_saturates (value : Q) (height : Z) :
  0 <= value ->
  (2 <= height)%Z ->
  (0 <= bar_height value height <= height - 2)%Z /\
  (1 <= value -> bar_height value height = (height - 2)%Z).
Proof.
  intros Hv Hh. split; [apply bar_height_range; assumption |].
  intros H1. unfold bar_height.
  pose proof (inject_Z_nonneg (height - 2) ltac:(lia)) as Hm.
  assert (Hprod : 0 <= value * inject_Z (height - 2)) by nra.
  assert (Hge : (height - 2 <= py_int (value * inject_Z (height - 2)))%Z).
  { rewrite (py_int_floor _ Hprod). rewrite <- (Qfloor_Z (height - 2)) at 1.
    apply Qfloor_resp_le. nra. }
  lia.
Qed.

Lemma bar_height_saturates_witness :
  0 <= 2.2 /\ (2 <= 20)%Z /\
  bar_height 2.2 20 = 18%Z /\ bar_height 0.5 20 = 9%Z.
Proof.
  split; [lra |]. split; [lia |]. split; [| reflexivity].
  apply (bar_height_saturates 2.2 20); [lra | lia | lra].
Defined.

Lemma height_percent_mono (j j' bar_h : Z) :
  (j <= j')%Z -> height_percent j bar_h <= height_percent j' bar_h.
Proof.
  intros H. unfold height_percent, Qdiv. apply Qmult_le_compat_r.
  - rewrite <- Zle_Qle. exact H.
  - apply Qinv_le_0_compat, inject_Z_nonneg. lia.
Qed.

Lemma height_percent_zero (bar_h : Z) : height_percent 0 bar_h == 0.
Proof. unfold height_percent, Qdiv. change (inject_Z 0) with 0. ring. Qed.

(** X21: inside one bar the gradient never gets dimmer from one cell to
    a higher one, and the lowest cell is always the dimmest step (medium
    shade, pair 1, not bold). *)
Theorem gradient_brightens_upwards (j j' bar_h : Z) :
  (j <= j')%Z ->
  (brightness (gradient j bar_h) <= brightness (gradient j' bar_h))%Z /\
  gradient 0 bar_h = (MediumShade, 1%Z, false).
Proof.
  intros H. pose proof (height_percent_mono j j' bar_h H) as Hm.
  pose proof (height_percent_zero bar_h) as H0.
  unfold gradient, brightness. cbv zeta. split.
  - destruct (Qlt_le_dec 0.85 (height_percent j bar_h));
      destruct (Qlt_le_dec 0.85 (height_percent j' bar_h));
      destruct (Qlt_le_dec 0.6 (height_percent j bar_h));
      destruct (Qlt_le_dec 0.6 (height_percent j' bar_h));
      destruct (Qlt_le_dec 0.3 (height_percent j bar_h));
      destruct (Qlt_le_dec 0.3 (height_percent j' bar_h));
      simpl; try lia; lra.
  - destruct (Qlt_le_dec 0.85 (height_percent 0 bar_h)); [lra |].
    destruct (Qlt_le_dec 0.6 (height_percent 0 bar_h)); [lra |].
    destruct (Qlt_le_dec 0.3 (height_percent 0 bar_h)); [lra | reflexivity].
Qed.

Lemma gradient_brightens_upwards_witness :
  (3 <= 9)%Z /\
  gradient 3 10 = (MediumShade, 1%Z, false) /\
  gradient 9 10 = (FullBlock, 3%Z, true) /\
  (brightness (gradient 3 10) <= brightness (gradient 9 10))%Z.
Proof.
  split; [lia |]. split; [reflexivity |]. split; [reflexivity |].
  apply (gradient_brightens_upwards 3 9 10). lia.
Defined.

Lemma in_zrange (z n : Z) : In z (zrange n) <-> (0 <= z < n)%Z.
Proof.
  unfold zrange. rewrite in_map_iff. split.
  - intros (k & <- & Hk). apply in_seq in Hk. lia.
  - intros Hz. exists (Z.to_nat z). split; [lia |]. apply in_seq. lia.
Qed.

Lemma on_screen_true (lines cols row col : Z) :
  on_screen lines cols row col = true ->
  (0 <= row < lines)%Z /\ (0 <= col < cols)%Z.
Proof.
  unfold on_screen. rewrite !andb_true_iff, !Z.leb_le, !Z.ltb_lt. lia.
Qed.

Lemma draw_run_cell (lines cols row cs cw : Z) (g : Glyph * Z * bool)
    (cell : Cell) :
  In cell (draw_run lines cols row cs cw g) ->
  cell_row cell = row /\ (cs <= cell_col cell < cs + cw)%Z /\
  on_screen lines cols (cell_row cell) (cell_col cell) = true /\
  cell_glyph cell = fst (fst g).
Proof.
  unfold draw_run. rewrite in_flat_map. intros (w & Hw & Hin).
  apply in_zrange in Hw. cbv zeta in Hin.
  destruct (on_screen lines cols row (cs + w)) eqn:Hon; [| destruct Hin].
  destruct Hin as [<- | []]. simpl. repeat split; try lia. exact Hon.
Qed.

Lemma gradient_glyph (j bar_h : Z) : fst (fst (gradient j bar_h)) <> PeakBar.
Proof.
  unfold gradient. cbv zeta.
  destruct (Qlt_le_dec _ _); [discriminate |].
  destruct (Qlt_le_dec _ _); [discriminate |].
  destruct (Qlt_le_dec _ _); discriminate.
Qed.

Lemma draw_bar_cell (lines cols sr h cs cw : Z) (v p : Q) (cell : Cell) :
  In cell (draw_bar lines cols sr h cs cw v p) ->
  (cs <= cell_col cell < cs + cw)%Z /\
  on_screen lines cols (cell_row cell) (cell_col cell) = true /\
  ((cell_glyph cell <> PeakBar /\
    exists j, (0 <= j < bar_height v h)%Z /\
              cell_row cell = (sr + h - 2 - j)%Z) \/
   (cell_glyph cell = PeakBar /\
    (bar_height v h + 2 < bar_height p h)%Z /\
    cell_row cell = (sr + h - 2 - bar_height p h)%Z)).
Proof.
  unfold draw_bar. cbv zeta. intros Hin. apply in_app_or in Hin as [Hin | Hin].
  - apply in_flat_map in Hin as (j & Hj & Hin). apply in_zrange in Hj.
    apply draw_run_cell in Hin as (Hrow & Hcol & Hon & Hg).
    split; [exact Hcol |]. split; [exact Hon |]. left.
    split; [rewrite Hg; apply gradient_glyph | exists j; auto].
  - destruct (Z.ltb_spec (bar_height v h + 2) (bar_height p h)); [| destruct Hin].
    apply draw_run_cell in Hin as (Hrow & Hcol & Hon & Hg).
    split; [exact Hcol |]. split; [exact Hon |]. right. auto.
Qed.

(** X22: within one bar a peak marker is only drawn well above the
    bar: its row is at least four rows above every cell of the bar, so
    at least three empty rows separate them. *)
Theorem peak_marker_above_bar (lines cols sr h cs cw : Z) (v p : Q)
    (c1 c2 : Cell) :
  In c1 (draw_bar lines cols sr h cs cw v p) ->
  In c2 (draw_bar lines cols sr h cs cw v p) ->
  cell_glyph c1 = PeakBar ->
  cell_glyph c2 <> PeakBar ->
  (cell_row c1 + 4 <= cell_row c2)%Z.
Proof.
  intros H1 H2 Hg1 Hg2.
  apply draw_bar_cell in H1 as (_ & _ & [[Hn _] | (_ & Hgap & Hr1)]);
    [congruence |].
  apply draw_bar_cell in H2 as (_ & _ & [(_ & j & Hj & Hr2) | [Hp _]]);
    [| congruence].
  lia.
Qed.

Ltac find_cell :=
  vm_compute; repeat (first [left; reflexivity | right]).

Lemma peak_marker_above_bar_witness :
  In (mkCell 8 2 PeakBar 3 true) (draw_bar 40 120 6 20 2 1 0.2 0.9) /\
  In (mkCell 22 2 FullBlock 3 false) (draw_bar 40 120 6 20 2 1 0.2 0.9) /\
  (8 + 4 <= 22)%Z.
Proof.
  assert (H1 : In (mkCell 8 2 PeakBar 3 true)
                 (draw_bar 40 120 6 20 2 1 0.2 0.9)).
  { find_cell. }
  assert (H2 : In (mkCell 22 2 FullBlock 3 false)
                 (draw_bar 40 120 6 20 2 1 0.2 0.9)).
  { find_cell. }
  split; [exact H1 |]. split; [exact H2 |].
  apply (peak_marker_above_bar 40 120 6 20 2 1 0.2 0.9 _ _ H1 H2);
    [reflexivity | discriminate].
Defined.

Section FurtherRenderer.

Variable pow13 : Q -> Q.

(** X23: whatever the window size, the visualizer part of [draw_ui]
    from a reachable state writes only on screen and only in rows 6 to
    [height - 8], so never on the title, the borders or the progress
    bar; with at least 64 available columns it also stays between
    column 2 and column [width - 30]. *)
Theorem visualizer_stays_in_its_rows
    (lines cols : Z) (e : TickEnv) (height width : Z) (s : MP3Player)
    (cell : Cell) :
  reachable pow13 s ->
  In cell (snd (draw_ui_visualizer pow13 lines cols e height width s)) ->
  (6 <= cell_row cell <= height - 8)%Z /\
  (0 <= cell_row cell < lines)%Z /\ (0 <= cell_col cell < cols)%Z /\
  ((64 <= width - 32)%Z -> (2 <= cell_col cell < width - 30)%Z).
Proof.
  intros Hr Hin. unfold draw_ui_visualizer in Hin. cbv zeta in Hin.
  destruct (Z.ltb_spec 5 (height - 12)) as [Hh |]; [| destruct Hin].
  unfold draw_visualizer, draw_bars in Hin. cbn [snd] in Hin.
  destruct (tick_visual_inv pow13 e s (proj1 (reachable_inv pow13 s Hr)))
    as (Hla & Hlp & Ha & Hp & _).
  rewrite Hla in Hin.
  apply in_concat in Hin as (run & Hrun & Hin).
  apply list_elem_of_In, elem_of_lookup_zip_with in Hrun
    as (i & c & [v p] & -> & Hc & Hvp).
  apply lookup_zip_Some in Hvp as [Hv Hpk]. cbn [fst snd] in Hin.
  pose proof (Ha i v Hv) as Hvb. pose proof (Hp i p Hpk) as Hpb.
  pose proof (bar_height_range v (height - 12) ltac:(lra) ltac:(lia)) as Hbh.
  pose proof (bar_height_range p (height - 12) ltac:(lra) ltac:(lia)) as Hph.
  apply draw_bar_cell in Hin as (Hcol & Hon & Hrow).
  apply on_screen_true in Hon as [Hr1 Hc1].
  split; [| split; [exact Hr1 | split; [exact Hc1 |]]].
  - destruct Hrow as [(_ & j & Hj & ->) | (_ & Hgap & ->)]; lia.
  - intros Hw.
    destruct (bar_layout_inside (width - 28) i c ltac:(lia) Hc) as (? & ? & ?).
    lia.
Qed.

End FurtherRenderer.

Lemma visualizer_stays_in_its_rows_witness :
  reachable sample_pow after_one_tick /\
  In (mkCell 21 2 MediumShade 1 false)
    (snd (draw_ui_visualizer sample_pow 30 100 sounding_tick 30 100
            after_one_tick)) /\
  (6 <= 21 <= 30 - 8)%Z.
Proof.
  assert (Hin : In (mkCell 21 2 MediumShade 1 false)
                  (snd (draw_ui_visualizer sample_pow 30 100 sounding_tick
                          30 100 after_one_tick))).
  { find_cell. }
  split; [apply after_one_tick_reachable |]. split; [exact Hin |].
  apply (visualizer_stays_in_its_rows sample_pow 30 100 sounding_tick 30 100
           after_one_tick _ after_one_tick_reachable Hin).
Defined.

(** ** Title line *)

(** X24: in a window at least 7 columns wide the title line of
    [draw_ui] never exceeds [width - 4] characters: a longer text is cut
    to exactly [width - 4], its last three being the dots, and a text
    that fits is left as it is. *)
Theorem truncate_info_fits {A : Type} (dots : list A) (width : Z)
    (song_info : list A) :
  length dots = 3%nat ->
  (7 <= width)%Z ->
  (Z.of_nat (length (truncate_info dots width song_info)) <= width - 4)%Z /\
  ((width - 4 < Z.of_nat (length song_info))%Z ->
   Z.of_nat (length (truncate_info dots width song_info)) = (width - 4)%Z /\
   truncate_info dots width song_info
   = take (Z.to_nat (width - 7)) song_info ++ dots) /\
  ((Z.of_nat (length song_info) <= width - 4)%Z ->
   truncate_info dots width song_info = song_info).
Proof.
  intros Hdots Hw. unfold truncate_info, py_prefix.
  destruct (Z.leb_spec 0 (width - 7)) as [_ |]; [| lia].
  destruct (Z.ltb_spec (width - 4) (Z.of_nat (length song_info))) as [Hlong | Hfit].
  - assert (Hlen : Z.of_nat (length (take (Z.to_nat (width - 7)) song_info ++ dots))
                   = (width - 4)%Z).
    { rewrite length_app, length_take, Hdots. lia. }
    split; [lia |]. split; [intros _; split; [exact Hlen | reflexivity] | lia].
  - split; [exact Hfit |]. split; [lia | reflexivity].
Qed.

Lemma truncate_info_fits_witness :
  length [46; 46; 46]%nat = 3%nat /\ (7 <= 9)%Z /\
  truncate_info [46; 46; 46]%nat 9 [1; 2; 3; 4; 5; 6; 7; 8]%nat
  = [1; 2; 46; 46; 46]%nat /\
  (Z.of_nat (length (truncate_info [46; 46; 46]%nat 9
                       [1; 2; 3; 4; 5; 6; 7; 8]%nat)) <= 9 - 4)%Z.
Proof.
  split; [reflexivity |]. split; [lia |]. split; [reflexivity |].
  apply (truncate_info_fits [46; 46; 46]%nat 9 [1; 2; 3; 4; 5; 6; 7; 8]%nat);
    [reflexivity | lia].
Defined.

(** X25: in a window narrower than 7 columns the cut goes wrong: the
    slice bound [width - 7] is negative, so a text longer than
    [width - 4] keeps all but its last [7 - width] characters before the
    dots are added, and the result is always longer than [width - 4]. *)
Theorem truncate_info_narrow {A : Type} (dots : list A) (width : Z)
    (song_info : list A) :
  length dots = 3%nat ->
  (width < 7)%Z ->
  (width - 4 < Z.of_nat (length song_info))%Z ->
  truncate_info dots width song_info
  = take (Z.to_nat (Z.of_nat (length song_info) + (width - 7))) song_info
    ++ dots /\
  Z.of_nat (length (truncate_info dots width song_info))
  = (Z.max 0 (Z.of_nat (length song_info) + (width - 7)) + 3)%Z /\
  (width - 4 < Z.of_nat (length (truncate_info dots width song_info)))%Z.
Proof.
  intros Hdots Hw Hlong. unfold truncate_info, py_prefix.
  destruct (Z.ltb_spec (width - 4) (Z.of_nat (length song_info))); [| lia].
  destruct (Z.leb_spec 0 (width - 7)); [lia |].
  split; [reflexivity |].
  rewrite length_app, length_take, Hdots. lia.
Qed.

Lemma truncate_info_narrow_witness :
  length [46; 46; 46]%nat = 3%nat /\ (5 < 7)%Z /\
  (5 - 4 < Z.of_nat (length [1; 2; 3; 4]%nat))%Z /\
  truncate_info [46; 46; 46]%nat 5 [1; 2; 3; 4]%nat
  = [1; 2; 46; 46; 46]%nat.
Proof.
  split; [reflexivity |]. split; [lia |]. split; [simpl; lia |].
  destruct (truncate_info_narrow [46; 46; 46]%nat 5 [1; 2; 3; 4]%nat
              eq_refl ltac:(lia) ltac:(simpl; lia)) as (H & _).
  exact H.
Defined.
